(** * Time codec and timestamp ledger of the YouTube Timestamp Creator

    A shallow embedding of the time handling and of the timestamp list of
    [src/pages/Index.tsx]: [timeToSeconds], [formatSeconds],
    [formatTimeString], the commit-time [timeRegex] of [addTimestamp],
    [removeTimestamp], the sort of the render and [copyToClipboard].

    Conventions of the embedding.
    - A JavaScript string is a list of 8-bit characters ([jsstring]).
    - A JavaScript number is [NaN] or an integer ([number]); arithmetic on
      integers is exact, which is what the engine computes while values stay
      in the safe-integer range.  Fractions and infinities are not modelled.
    - Component state is passed explicitly; [Array.prototype.sort] sorts the
      array it is called on, so the functions that call it return the array
      they leave behind. *)

From Stdlib Require Import ZArith Lia List Bool Ascii String.
From Stdlib Require Import Permutation Sorted.
Import ListNotations.
Open Scope Z_scope.

(** ** JavaScript strings and numbers *)

Definition jsstring := list ascii.

Definition js (s : string) : jsstring := list_ascii_of_string s.

Definition code (c : ascii) : Z := Z.of_N (N_of_ascii c).

Definition char_eqb (a b : ascii) : bool := Ascii.eqb a b.

Definition colon : ascii := ":"%char.

Inductive number : Type :=
| NaN : number
| Num : Z -> number.

Definition num_add (a b : number) : number :=
  match a, b with
  | Num x, Num y => Num (x + y)
  | _, _ => NaN
  end.

Definition num_sub (a b : number) : number :=
  match a, b with
  | Num x, Num y => Num (x - y)
  | _, _ => NaN
  end.

Definition num_mul (a b : number) : number :=
  match a, b with
  | Num x, Num y => Num (x * y)
  | _, _ => NaN
  end.

(** [a > b]: false as soon as one side is [NaN]. *)
Definition num_gt (a b : number) : bool :=
  match a, b with
  | Num x, Num y => y <? x
  | _, _ => false
  end.

(** [a <= b]: false as soon as one side is [NaN]. *)
Definition num_le (a b : number) : bool :=
  match a, b with
  | Num x, Num y => x <=? y
  | _, _ => false
  end.

(** *** Character classes *)

(** [\d]: the ASCII digits. *)
Definition is_digit (c : ascii) : bool := (48 <=? code c) && (code c <=? 57).

(** [[0-5]]. *)
Definition is_digit05 (c : ascii) : bool := (48 <=? code c) && (code c <=? 53).

Definition is_colon (c : ascii) : bool := char_eqb c colon.

(** White space skipped by [parseInt]: TAB, LF, VT, FF, CR and space. *)
Definition is_space (c : ascii) : bool :=
  ((9 <=? code c) && (code c <=? 13)) || (code c =? 32).

Definition digit_val (c : ascii) : Z := code c - 48.

Definition digit_char (d : Z) : ascii := ascii_of_N (Z.to_N (d + 48)).

(** Value of a hexadecimal digit, if [c] is one. *)
Definition hex_val (c : ascii) : option Z :=
  let n := code c in
  if (48 <=? n) && (n <=? 57) then Some (n - 48)
  else if (65 <=? n) && (n <=? 70) then Some (n - 55)
  else if (97 <=? n) && (n <=? 102) then Some (n - 87)
  else None.

Definition dec_val (c : ascii) : option Z :=
  if is_digit c then Some (digit_val c) else None.

(** *** [parseInt(s)], radix not given *)

(** Reads the longest prefix of digits in the radix given by [dv],
    accumulating in [acc]; [seen] tells whether a digit was read. *)
Fixpoint read_digits (dv : ascii -> option Z) (radix : Z)
         (s : jsstring) (seen : bool) (acc : Z) : option Z :=
  match s with
  | c :: rest =>
      match dv c with
      | Some d => read_digits dv radix rest true (acc * radix + d)
      | None => if seen then Some acc else None
      end
  | [] => if seen then Some acc else None
  end.

Fixpoint skip_spaces (s : jsstring) : jsstring :=
  match s with
  | c :: rest => if is_space c then skip_spaces rest else s
  | [] => []
  end.

Definition is_x (c : ascii) : bool := (code c =? 120) || (code c =? 88).

Definition parse_magnitude (s : jsstring) : option Z :=
  match s with
  | z :: x :: rest =>
      if (code z =? 48) && is_x x
      then read_digits hex_val 16 rest false 0
      else read_digits dec_val 10 s false 0
  | _ => read_digits dec_val 10 s false 0
  end.

Definition parseInt (s : jsstring) : number :=
  let t := skip_spaces s in
  let (sign, body) :=
    match t with
    | c :: rest =>
        if code c =? 45 then (-1, rest)
        else if code c =? 43 then (1, rest)
        else (1, t)
    | [] => (1, t)
    end in
  match parse_magnitude body with
  | Some v => Num (sign * v)
  | None => NaN
  end.

(** *** [Number.prototype.toString()] on integers

    Plain decimal digits, as numbers print below 1e21; the exponent form
    that larger numbers print in is not modelled. *)

Fixpoint digits_fuel (fuel : nat) (n : Z) : jsstring :=
  match fuel with
  | O => []
  | S f =>
      (if n <? 10 then [] else digits_fuel f (n / 10))
        ++ [digit_char (n mod 10)]
  end.

(** Decimal digits of [n >= 0], most significant first. *)
Definition digits (n : Z) : jsstring :=
  digits_fuel (S (Z.to_nat (Z.log2 n))) n.

Definition toString (n : Z) : jsstring :=
  if n <? 0 then "-"%char :: digits (- n) else digits n.

(** *** String methods used by the component *)

(** [s.split(':')]: never empty; [""] splits into [[""]]. *)
Fixpoint split_colon (s : jsstring) : list jsstring :=
  match s with
  | [] => [[]]
  | c :: rest =>
      if is_colon c then [] :: split_colon rest
      else match split_colon rest with
           | p :: ps => (c :: p) :: ps
           | [] => [[c]]
           end
  end.

(** [s.padStart(n, '0')]. *)
Definition padStart (n : nat) (s : jsstring) : jsstring :=
  repeat "0"%char (n - List.length s) ++ s.

(** [s.padEnd(n, '0')]. *)
Definition padEnd (n : nat) (s : jsstring) : jsstring :=
  s ++ repeat "0"%char (n - List.length s).

(** [s.substring(0, n)]. *)
Definition substring0 (n : nat) (s : jsstring) : jsstring := firstn n s.

(** [a || b] on strings: the empty string is falsy. *)
Definition or_else (a b : jsstring) : jsstring :=
  match a with
  | [] => b
  | _ => a
  end.

(** [parts.join(sep)]. *)
Fixpoint join (sep : jsstring) (parts : list jsstring) : jsstring :=
  match parts with
  | [] => []
  | [p] => p
  | p :: rest => p ++ sep ++ join sep rest
  end.

(** ** TimeCodec *)

(** [timeToSeconds]: [time.split(':').map(part => parseInt(part))], then
    the sum by the number of parts. *)
Definition timeToSeconds (time : jsstring) : number :=
  match map parseInt (split_colon time) with
  | [m; s] => num_add (num_mul m (Num 60)) s
  | [h; m; s] =>
      num_add (num_add (num_mul h (Num 3600)) (num_mul m (Num 60))) s
  | _ => Num 0
  end.

(** [formatSeconds]: [%] is the truncated remainder, [Math.floor] of a
    quotient of integers the floored division. *)
Definition formatSeconds (totalSeconds : Z) : jsstring :=
  let hours := totalSeconds / 3600 in
  let minutes := Z.rem totalSeconds 3600 / 60 in
  let seconds := Z.rem totalSeconds 60 in
  if 0 <? hours
  then toString hours ++ [colon] ++ padStart 2 (toString minutes)
         ++ [colon] ++ padStart 2 (toString seconds)
  else toString minutes ++ [colon] ++ padStart 2 (toString seconds).

(** [input.replace(/[^\d:]/g, '')]. *)
Definition clean_input (input : jsstring) : jsstring :=
  filter (fun c => is_digit c || is_colon c) input.

(** The [cleaned] string and [totalSeconds] that [formatTimeString] has
    computed when it reaches the comparison with the duration. *)
Definition sanitize (input : jsstring) : jsstring * number :=
  let parts := split_colon (clean_input input) in
  if (List.length parts <=? 2)%nat then
    let minutes := or_else (nth 0 parts []) (js "0") in
    let seconds :=
      if (1 <? List.length parts)%nat
      then substring0 2 (padEnd 2 (nth 1 parts []))
      else js "00" in
    (minutes ++ [colon] ++ seconds,
     num_add (num_mul (parseInt minutes) (Num 60)) (parseInt seconds))
  else
    let hours := or_else (nth 0 parts []) (js "0") in
    let minutes := or_else (nth 1 parts []) (js "00") in
    let seconds :=
      or_else (substring0 2 (padEnd 2 (nth 2 parts []))) (js "00") in
    (hours ++ [colon] ++ minutes ++ [colon] ++ seconds,
     num_add (num_add (num_mul (parseInt hours) (Num 3600))
                      (num_mul (parseInt minutes) (Num 60)))
             (parseInt seconds)).

(** [formatTimeString], with the [videoDuration] of the component state as
    an argument.  The duration is a whole number of seconds: 0 while it is
    not known, or what [Math.floor(video.duration)] stores for a local
    video; a duration with a fraction, as the widget can report, is not
    modelled. *)
Definition formatTimeString (input : jsstring) (videoDuration : Z)
  : jsstring :=
  let (cleaned, totalSeconds) := sanitize input in
  if num_gt totalSeconds (Num videoDuration) && (0 <? videoDuration)
  then formatSeconds videoDuration
  else cleaned.

(** ** Regular expressions

    [RegExp.prototype.test] for an expression anchored by [^] and [$] and
    built from character classes, sequence, alternative, [?], [+] and [*]
    decides membership of the whole string in the language of the
    expression; [test] computes it with derivatives. *)

Inductive regex : Type :=
| Void : regex
| Eps : regex
| Cls : (ascii -> bool) -> regex
| Seq : regex -> regex -> regex
| Alt : regex -> regex -> regex
| Star : regex -> regex.

(** [r?] and [r+]. *)
Definition Opt (r : regex) : regex := Alt r Eps.
Definition Plus (r : regex) : regex := Seq r (Star r).

Fixpoint nullable (r : regex) : bool :=
  match r with
  | Void => false
  | Eps => true
  | Cls _ => false
  | Seq a b => nullable a && nullable b
  | Alt a b => nullable a || nullable b
  | Star _ => true
  end.

Fixpoint deriv (c : ascii) (r : regex) : regex :=
  match r with
  | Void => Void
  | Eps => Void
  | Cls p => if p c then Eps else Void
  | Seq a b =>
      if nullable a
      then Alt (Seq (deriv c a) b) (deriv c b)
      else Seq (deriv c a) b
  | Alt a b => Alt (deriv c a) (deriv c b)
  | Star a => Seq (deriv c a) (Star a)
  end.

Fixpoint test (r : regex) (s : jsstring) : bool :=
  match s with
  | [] => nullable r
  | c :: rest => test (deriv c r) rest
  end.

(** [/^(\d+:)?([0-5]?\d):([0-5]\d)$/], the [timeRegex] of [addTimestamp]. *)
Definition timeRegex : regex :=
  Seq (Opt (Seq (Plus (Cls is_digit)) (Cls is_colon)))
      (Seq (Seq (Opt (Cls is_digit05)) (Cls is_digit))
           (Seq (Cls is_colon)
                (Seq (Cls is_digit05) (Cls is_digit)))).

(** The strict commit-time check: [timeRegex.test(currentTime)]. *)
Definition validateCommitFormat (time : jsstring) : bool :=
  test timeRegex time.

(** ** TimestampLedger *)

Record VideoMetadata : Type := {
  title : jsstring;
  thumbnail : jsstring;
  videoId : jsstring
}.

Record Timestamp : Type := {
  id : jsstring;
  time : jsstring;
  description : jsstring;
  seconds : number
}.

(** The notices of [toast.error] and [toast.success]. *)
Inductive Toast : Type :=
| ToastError : jsstring -> Toast
| ToastSuccess : jsstring -> Toast.

Fixpoint str_eqb (a b : jsstring) : bool :=
  match a, b with
  | [], [] => true
  | x :: a', y :: b' => char_eqb x y && str_eqb a' b'
  | _, _ => false
  end.

Definition is_empty (s : jsstring) : bool :=
  match s with
  | [] => true
  | _ => false
  end.

(** [addTimestamp].  [now] is the reading of [Date.now()], [currentTime] and
    [currentDescription] the edit state at the call.  Returns the array
    handed to [setTimestamps] (the old one when nothing is set) and the
    notice shown. *)
Definition addTimestamp (metadata : option VideoMetadata) (now : Z)
           (currentTime currentDescription : jsstring)
           (timestamps : list Timestamp) : list Timestamp * option Toast :=
  match metadata with
  | None => (timestamps, None)
  | Some _ =>
      if is_empty currentTime || is_empty currentDescription
      then (timestamps,
            Some (ToastError (js "Please enter both time and description")))
      else if negb (test timeRegex currentTime)
      then (timestamps,
            Some (ToastError
                    (js "Invalid time format. Please use mm:ss or h:mm:ss")))
      else
        let newTimestamp :=
          {| id := toString now;
             time := currentTime;
             description := currentDescription;
             seconds := timeToSeconds currentTime |} in
        (timestamps ++ [newTimestamp],
         Some (ToastSuccess (js "Timestamp added")))
  end.

(** [removeTimestamp]: [timestamps.filter(ts => ts.id !== id)], then the
    notice, whatever the filter dropped. *)
Definition removeTimestamp (rid : jsstring) (timestamps : list Timestamp)
  : list Timestamp * Toast :=
  (filter (fun ts => negb (str_eqb (id ts) rid)) timestamps,
   ToastSuccess (js "Timestamp removed")).

(** *** [Array.prototype.sort(comparefn)]

    The sort is stable (ECMAScript 2019) and works in place.  It is modelled
    by a stable insertion sort; [SortCompare] reads a [NaN] result of the
    comparator as [0]. *)

Definition SortCompare {A : Type} (comparefn : A -> A -> number) (x y : A)
  : Z :=
  match comparefn x y with
  | NaN => 0
  | Num v => v
  end.

Fixpoint sort_insert {A : Type} (comparefn : A -> A -> number) (x : A)
         (l : list A) : list A :=
  match l with
  | [] => [x]
  | y :: rest =>
      if 0 <? SortCompare comparefn x y
      then y :: sort_insert comparefn x rest
      else x :: l
  end.

Fixpoint array_sort {A : Type} (comparefn : A -> A -> number) (l : list A)
  : list A :=
  match l with
  | [] => []
  | x :: rest => sort_insert comparefn x (array_sort comparefn rest)
  end.

(** [(a, b) => a.seconds - b.seconds]. *)
Definition bySeconds (a b : Timestamp) : number :=
  num_sub (seconds a) (seconds b).

(** [timestamps.sort((a, b) => a.seconds - b.seconds)]: the value of the
    expression, which is also the content of [timestamps] afterwards. *)
Definition sortedView (timestamps : list Timestamp) : list Timestamp :=
  array_sort bySeconds timestamps.

(** [({ time, description }) => `${time} - ${description}`]. *)
Definition exportLine (ts : Timestamp) : jsstring :=
  time ts ++ js " - " ++ description ts.

Definition newline : jsstring := [ascii_of_N 10].

(** The [formattedTimestamps] of [copyToClipboard]. *)
Definition exportText (timestamps : list Timestamp) : jsstring :=
  join newline (map exportLine (sortedView timestamps)).

(** What a call leaves behind: the content of the [timestamps] array, the
    text written to the clipboard if any, the notice. *)
Record CopyResult : Type := {
  copy_array : list Timestamp;
  copy_clipboard : option jsstring;
  copy_toast : Toast
}.

(** [copyToClipboard]. *)
Definition copyToClipboard (timestamps : list Timestamp) : CopyResult :=
  if (List.length timestamps =? 0)%nat
  then {| copy_array := timestamps;
          copy_clipboard := None;
          copy_toast := ToastError (js "No timestamps to copy") |}
  else {| copy_array := sortedView timestamps;
          copy_clipboard := Some (exportText timestamps);
          copy_toast := ToastSuccess (js "Timestamps copied to clipboard!") |}.

(** The timestamp list of the render: the rows shown, and the content of
    the [timestamps] array afterwards. *)
Definition renderTimestamps (metadata : option VideoMetadata)
           (timestamps : list Timestamp)
  : list Timestamp * list Timestamp :=
  match metadata with
  | None => ([], timestamps)
  | Some _ =>
      if (0 <? List.length timestamps)%nat
      then (sortedView timestamps, sortedView timestamps)
      else ([], timestamps)
  end.

(** *** The component state and its events *)

Record Ledger : Type := {
  metadata : option VideoMetadata;
  timestamps : list Timestamp
}.

Definition initial : Ledger := {| metadata := None; timestamps := [] |}.

Inductive Event : Type :=
| EvLoad : VideoMetadata -> Event
| EvAdd : Z -> jsstring -> jsstring -> Event
| EvRemove : jsstring -> Event
| EvRender : Event
| EvCopy : Event.

(** One event handler run to completion.  [EvLoad] is the successful
    end of [handleSubmit]: the metadata is set and the list cleared. *)
Definition step (st : Ledger) (ev : Event) : Ledger :=
  match ev with
  | EvLoad md => {| metadata := Some md; timestamps := [] |}
  | EvAdd now t d =>
      {| metadata := metadata st;
         timestamps := fst (addTimestamp (metadata st) now t d (timestamps st)) |}
  | EvRemove rid =>
      {| metadata := metadata st;
         timestamps := fst (removeTimestamp rid (timestamps st)) |}
  | EvRender =>
      {| metadata := metadata st;
         timestamps := snd (renderTimestamps (metadata st) (timestamps st)) |}
  | EvCopy =>
      {| metadata := metadata st;
         timestamps := copy_array (copyToClipboard (timestamps st)) |}
  end.

Definition run (evs : list Event) : Ledger := fold_left step evs initial.

(** The entries in the order of their insertion: the same events with the
    sorts left out. *)
Definition step_inserted (st : Ledger) (ev : Event) : Ledger :=
  match ev with
  | EvRender | EvCopy => st
  | _ => step st ev
  end.

Definition inserted (evs : list Event) : list Timestamp :=
  timestamps (fold_left step_inserted evs initial).

(** The metadata [handleSubmit] sets for a video identifier. *)
Definition loadedMetadata (vid : jsstring) : VideoMetadata :=
  {| title := js "Sample YouTube Video";
     thumbnail :=
       js "https://img.youtube.com/vi/" ++ vid ++ js "/maxresdefault.jpg";
     videoId := vid |}.

(** ** The other handlers of the time input *)

(** [Math.min(a, b)]: [NaN] as soon as one side is [NaN]. *)
Definition num_min (a b : number) : number :=
  match a, b with
  | Num x, Num y => Num (Z.min x y)
  | _, _ => NaN
  end.

(** [parseTimeInput], with the [videoDuration] of the component state as
    an argument. *)
Definition parseTimeInput (input : jsstring) (videoDuration : Z) : number :=
  let totalSeconds :=
    match map parseInt (split_colon input) with
    | [m; s] => num_add (num_mul m (Num 60)) s
    | [h; m; s] =>
        num_add (num_add (num_mul h (Num 3600)) (num_mul m (Num 60))) s
    | _ => Num 0
    end in
  num_min totalSeconds (Num videoDuration).

(** [captureCurrentTime] of [src/pages/Index.tsx].  [playerTime] is [None]
    while there is no player, and else [Math.floor(player.getCurrentTime())];
    the result is the [currentTime] of the state afterwards. *)
Definition captureCurrentTime (playerTime : option Z)
           (currentTime : jsstring) : jsstring :=
  match playerTime with
  | None => currentTime
  | Some currentSeconds =>
      let minutes := currentSeconds / 60 in
      let seconds := Z.rem currentSeconds 60 in
      toString minutes ++ [colon] ++ padStart 2 (toString seconds)
  end.

(** [adjustTime(seconds)]: the new [currentTime] and the position handed to
    [seekTo], or [None] when there is no player.  The duration is a whole
    number of seconds, as for [formatTimeString]. *)
Definition adjustTime (playerTime : option Z) (seconds videoDuration : Z)
  : option (jsstring * Z) :=
  match playerTime with
  | None => None
  | Some currentSeconds =>
      let newSeconds :=
        Z.min (Z.max (currentSeconds + seconds) 0) videoDuration in
      Some (formatSeconds newSeconds, newSeconds)
  end.

(** What a key press in the time input does. *)
Inductive KeyEffect : Type :=
| KeyIgnored : KeyEffect
| KeyAdjusted : option (jsstring * Z) -> KeyEffect
| KeyToggled : KeyEffect
| KeySeek : number -> KeyEffect
| KeyNoSeek : KeyEffect.

(** [handleTimeKeyDown].  The duration is a whole number of seconds, as
    for [formatTimeString]. *)
Definition handleTimeKeyDown (playerTime : option Z) (key : jsstring)
           (currentTime : jsstring) (videoDuration : Z) : KeyEffect :=
  match playerTime with
  | None => KeyIgnored
  | Some _ =>
      let currentSeconds := timeToSeconds currentTime in
      if str_eqb key (js "ArrowLeft")
      then KeyAdjusted (adjustTime playerTime (-5) videoDuration)
      else if str_eqb key (js "ArrowRight")
      then KeyAdjusted (adjustTime playerTime 5 videoDuration)
      else if str_eqb key (js " ")
      then KeyToggled
      else if str_eqb key (js "Enter")
      then if num_le currentSeconds (Num videoDuration)
           then KeySeek currentSeconds
           else KeyNoSeek
      else KeyIgnored
  end.

(** ** [String.prototype.match] with capture groups

    A backtracking matcher in continuation-passing style: alternatives are
    tried from left to right, [*] and [?] are greedy and give back what
    they took when the rest of the expression fails, an iteration of [*]
    that consumes nothing is refused.  A group records the text its body
    consumed (no group of [regExp] is inside a [*]). *)

Inductive pattern : Type :=
| PEps : pattern
| PCls : (ascii -> bool) -> pattern
| PSeq : pattern -> pattern -> pattern
| PAlt : pattern -> pattern -> pattern
| PStar : pattern -> pattern
| PGroup : nat -> pattern -> pattern.

(** [r?], greedy. *)
Definition POpt (r : pattern) : pattern := PAlt r PEps.

(** The capture groups: [None] for a group that took no part. *)
Definition captures : Type := nat -> option jsstring.

Definition no_captures : captures := fun _ => None.

Definition set_capture (i : nat) (w : jsstring) (caps : captures)
  : captures :=
  fun j => if (j =? i)%nat then Some w else caps j.

(** The text between the start of [s] and its suffix [rest]. *)
Definition consumed (s rest : jsstring) : jsstring :=
  firstn (List.length s - List.length rest) s.

Definition continuation : Type := jsstring -> captures -> option captures.

(** The iterations of a [*] whose body is matched by [body]. *)
Fixpoint star_iter (body : jsstring -> captures -> continuation
                           -> option captures)
         (k : continuation) (fuel : nat) (s : jsstring) (caps : captures)
  : option captures :=
  match fuel with
  | O => k s caps
  | S fuel' =>
      match body s caps
              (fun s' caps' =>
                 if (List.length s' <? List.length s)%nat
                 then star_iter body k fuel' s' caps'
                 else None) with
      | Some res => Some res
      | None => k s caps
      end
  end.

Fixpoint pmatch (r : pattern) (s : jsstring) (caps : captures)
         (k : continuation) : option captures :=
  match r with
  | PEps => k s caps
  | PCls p =>
      match s with
      | c :: rest => if p c then k rest caps else None
      | [] => None
      end
  | PSeq a b => pmatch a s caps (fun s' caps' => pmatch b s' caps' k)
  | PAlt a b =>
      match pmatch a s caps k with
      | Some res => Some res
      | None => pmatch b s caps k
      end
  | PStar a =>
      star_iter (fun s' caps' k' => pmatch a s' caps' k') k
                (List.length s) s caps
  | PGroup i a =>
      pmatch a s caps
             (fun s' caps' => k s' (set_capture i (consumed s s') caps'))
  end.

(** [s.match(r)] for an expression [r] that starts with [^] and has no
    [$]: the match starts at index 0 and may end anywhere. *)
Definition string_match (r : pattern) (s : jsstring) : option captures :=
  pmatch r s no_captures (fun _ caps => Some caps).

(** A literal text. *)
Definition lit (w : jsstring) : pattern :=
  fold_right (fun c r => PSeq (PCls (fun x => char_eqb x c)) r) PEps w.

(** [.]: any character but a line terminator. *)
Definition is_dot (c : ascii) : bool :=
  negb ((code c =? 10) || (code c =? 13)).

(** [\w]: letters, digits and the underscore. *)
Definition is_word (c : ascii) : bool :=
  let n := code c in
  ((65 <=? n) && (n <=? 90)) || ((97 <=? n) && (n <=? 122))
  || ((48 <=? n) && (n <=? 57)) || (n =? 95).

(** [[^#&?]]. *)
Definition is_id_char (c : ascii) : bool :=
  negb ((code c =? 35) || (code c =? 38) || (code c =? 63)).

(** [((youtu.be\/)|(v\/)|(\/u\/\w\/)|(embed\/)|(watch\?))], groups 1 to 6. *)
Definition markerGroup : pattern :=
  PGroup 1
    (PAlt (PGroup 2 (PSeq (lit (js "youtu"))
                          (PSeq (PCls is_dot) (lit (js "be/")))))
    (PAlt (PGroup 3 (lit (js "v/")))
    (PAlt (PGroup 4 (PSeq (lit (js "/u/"))
                          (PSeq (PCls is_word) (lit (js "/")))))
    (PAlt (PGroup 5 (lit (js "embed/")))
          (PGroup 6 (lit (js "watch?"))))))).

(** The rest of [regExp]: an optional [?], an optional [v], an optional
    [=], group 7 with the longest run of [[^#&?]], and a final [.] run. *)
Definition idPart : pattern :=
  PSeq (POpt (lit (js "?")))
    (PSeq (POpt (lit (js "v")))
       (PSeq (POpt (lit (js "=")))
          (PSeq (PGroup 7 (PStar (PCls is_id_char)))
                (PStar (PCls is_dot))))).

(** The [regExp] of [extractVideoId]: from the start of the string a run
    of [.], then [markerGroup], then [idPart]. *)
Definition regExp : pattern :=
  PSeq (PStar (PCls is_dot)) (PSeq markerGroup idPart).

(** [extractVideoId].  Group 7 takes part in every match, so [match[7]] is
    a string whenever [match] is not [null]. *)
Definition extractVideoId (url : jsstring) : option jsstring :=
  match string_match regExp url with
  | Some m =>
      match m 7%nat with
      | Some w => if (List.length w =? 11)%nat then Some w else None
      | None => None
      end
  | None => None
  end.

(** [handleSubmit], run to its end: the ledger and the notice it leaves.
    The wait on the timer never fails, so the [catch] is never taken. *)
Definition handleSubmit (url : jsstring) (st : Ledger) : Ledger * Toast :=
  if is_empty url
  then (st, ToastError (js "Please enter a YouTube URL"))
  else
    match extractVideoId url with
    | None => (st, ToastError (js "Invalid YouTube URL"))
    | Some vid =>
        ({| metadata := Some (loadedMetadata vid); timestamps := [] |},
         ToastSuccess (js "Video loaded successfully"))
    end.

(** A number inside a template literal. *)
Definition numberToString (n : number) : jsstring :=
  match n with
  | NaN => js "NaN"
  | Num z => toString z
  end.

(** The [timestampUrl] of [openTimestampedVideo]. *)
Definition timestampUrl (md : VideoMetadata) (ts : Timestamp) : jsstring :=
  js "https://www.youtube.com/watch?v=" ++ videoId md
     ++ js "&t=" ++ numberToString (seconds ts) ++ js "s".

(** What [openTimestampedVideo] does. *)
Inductive OpenEffect : Type :=
| OpenNothing : OpenEffect
| OpenSeekAndPlay : number -> OpenEffect
| OpenWindow : jsstring -> OpenEffect.

(** [openTimestampedVideo] of [src/pages/Index.tsx]; [player] tells
    whether the embedded player exists. *)
Definition openTimestampedVideo (metadata : option VideoMetadata)
           (player : bool) (timestamp : Timestamp) : OpenEffect :=
  match metadata with
  | None => OpenNothing
  | Some md =>
      if player
      then OpenSeekAndPlay (seconds timestamp)
      else OpenWindow (timestampUrl md timestamp)
  end.

(** ** Notions used in the statements *)

Definition all_digits (s : jsstring) : Prop :=
  Forall (fun c => is_digit c = true) s.

(** The number a string of decimal digits denotes. *)
Definition dec_value (s : jsstring) : Z :=
  fold_left (fun acc c => acc * 10 + digit_val c) s 0.

Definition no_colon (s : jsstring) : Prop :=
  Forall (fun c => is_colon c = false) s.

(** The language of a regular expression. *)
Inductive lang : regex -> jsstring -> Prop :=
| lang_eps : lang Eps []
| lang_cls p c : p c = true -> lang (Cls p) [c]
| lang_seq a b s t : lang a s -> lang b t -> lang (Seq a b) (s ++ t)
| lang_alt_l a b s : lang a s -> lang (Alt a b) s
| lang_alt_r a b s : lang b s -> lang (Alt a b) s
| lang_star_nil a : lang (Star a) []
| lang_star_app a s t :
    lang a s -> lang (Star a) t -> lang (Star a) (s ++ t).

#[local] Hint Constructors lang : core.

Ltac inv H := inversion H; subst; clear H.

(** The commit grammar in the words of the specification: an optional
    hours prefix (one or more digits followed by a colon), minutes as one
    or two digits with value in [0,59], a colon, seconds as exactly two
    digits with value in [0,59]. *)
Definition hours_prefix (h : jsstring) : Prop :=
  h = [] \/ exists ds, ds <> [] /\ all_digits ds /\ h = ds ++ [colon].

Definition commit_grammar (t : jsstring) : Prop :=
  exists h m s,
    t = h ++ m ++ [colon] ++ s
    /\ hours_prefix h
    /\ all_digits m
    /\ (List.length m = 1%nat \/ List.length m = 2%nat)
    /\ 0 <= dec_value m <= 59
    /\ all_digits s
    /\ List.length s = 2%nat
    /\ 0 <= dec_value s <= 59.

(** The entries whose [seconds] is the number [k]. *)
Definition has_seconds (k : Z) (ts : Timestamp) : bool :=
  match seconds ts with
  | Num v => v =? k
  | NaN => false
  end.

Definition le_seconds (a b : Timestamp) : Prop :=
  num_le (seconds a) (seconds b) = true.

(** Ascending by [seconds]: every entry is at most every later one. *)
Definition ascending (l : list Timestamp) : Prop :=
  StronglySorted le_seconds l.

Definition numeric (ts : Timestamp) : Prop :=
  exists v, seconds ts = Num v.

(** [seconds] is what [timeToSeconds] reads from [time]. *)
Definition consistent (ts : Timestamp) : Prop :=
  seconds ts = timeToSeconds (time ts).

(** The reading of [Date.now()] at an add that commits an entry. *)
Definition event_clocks (st : Ledger) (ev : Event) : list Z :=
  match ev with
  | EvAdd now t d =>
      match snd (addTimestamp (metadata st) now t d (timestamps st)) with
      | Some (ToastSuccess _) => [now]
      | _ => []
      end
  | _ => []
  end.

(** The readings of [Date.now()] at the adds that commit an entry, along
    the events [evs] run from [st]. *)
Fixpoint commit_clocks (st : Ledger) (evs : list Event) : list Z :=
  match evs with
  | [] => []
  | ev :: rest => event_clocks st ev ++ commit_clocks (step st ev) rest
  end.

(** The shape of a sanitized time: two or three fields of digits, none
    empty, the last of exactly two digits. *)
Definition sanitized_shape (t : jsstring) : Prop :=
  (exists m s,
     t = m ++ [colon] ++ s
     /\ all_digits m /\ m <> []
     /\ all_digits s /\ List.length s = 2%nat)
  \/ (exists h m s,
        t = h ++ [colon] ++ m ++ [colon] ++ s
        /\ all_digits h /\ h <> []
        /\ all_digits m /\ m <> []
        /\ all_digits s /\ List.length s = 2%nat).

(** An entry as [addTimestamp] accepts it. *)
Definition valid_entry (ts : Timestamp) : Prop :=
  validateCommitFormat (time ts) = true
  /\ description ts <> []
  /\ exists v, seconds ts = Num v /\ 0 <= v.

(** The greedy run of a character class in front of a continuation: what
    [pmatch] computes for a [PStar] over a class. *)
Fixpoint greedy_cls (p : ascii -> bool) (k : continuation)
         (s : jsstring) (caps : captures) : option captures :=
  match s with
  | c :: rest =>
      if p c
      then match greedy_cls p k rest caps with
           | Some res => Some res
           | None => k s caps
           end
      else k s caps
  | [] => k s caps
  end.

(** The longest prefix of [s] in the class [p], and what follows it. *)
Fixpoint take_run (p : ascii -> bool) (s : jsstring) : jsstring :=
  match s with
  | c :: rest => if p c then c :: take_run p rest else []
  | [] => []
  end.

Fixpoint drop_run (p : ascii -> bool) (s : jsstring) : jsstring :=
  match s with
  | c :: rest => if p c then drop_run p rest else s
  | [] => []
  end.

(** [s] without a leading [c]. *)
Definition strip (c : ascii) (s : jsstring) : jsstring :=
  match s with
  | x :: rest => if char_eqb x c then rest else s
  | [] => []
  end.

(** The text group 7 takes when [idPart] starts at [s]. *)
Definition idText (s : jsstring) : jsstring :=
  take_run is_id_char (strip "="%char (strip "v"%char (strip "?"%char s))).

(** The texts group 1 can take. *)
Definition marker_text (m : jsstring) : Prop :=
  (exists c, is_dot c = true /\ m = js "youtu" ++ [c] ++ js "be/")
  \/ m = js "v/"
  \/ (exists c, is_word c = true /\ m = js "/u/" ++ [c] ++ js "/")
  \/ m = js "embed/"
  \/ m = js "watch?".

Fixpoint starts_with (w s : jsstring) : bool :=
  match w, s with
  | [], _ => true
  | x :: w', y :: s' => char_eqb x y && starts_with w' s'
  | _ :: _, [] => false
  end.

(** [w] occurs in [s]. *)
Fixpoint occurs (w s : jsstring) : bool :=
  starts_with w s
  || match s with
     | _ :: rest => occurs w rest
     | [] => false
     end.

Definition slash : ascii := "/"%char.

(** A video identifier that a link can carry: eleven characters, none of
    [#], [&], [?] and [/]. *)
Definition plain_id (v : jsstring) : Prop :=
  List.length v = 11%nat
  /\ Forall (fun c => is_id_char c = true /\ c <> slash) v.

(** What may follow the identifier in a link: nothing, or a [#] or [&]
    and then no [/] and no [?]. *)
Definition plain_tail (rest : jsstring) : Prop :=
  rest = []
  \/ exists c r,
       rest = c :: r
       /\ (c = "#"%char \/ c = "&"%char)
       /\ Forall (fun x => x <> slash /\ x <> "?"%char) r.

Definition question : ascii := "?"%char.

(** No [/] and no [?]. *)
Definition no_separator (s : jsstring) : Prop :=
  Forall (fun x => x <> slash /\ x <> question) s.

(** A text that each marker contains. *)
Definition marker_pieces : list jsstring :=
  [js "youtu"; js "v/"; js "/u/"; js "embed/"; js "watch?"].

(** No marker starts inside [m] after its first character. *)
Definition marker_free_tail (m : jsstring) : bool :=
  forallb (fun w => negb (occurs w (tl m))) marker_pieces.

(** The rest of [regExp] after the leading run of [.]. *)
Definition afterDots : continuation :=
  fun s caps => pmatch (PSeq markerGroup idPart) s caps (fun _ c => Some c).

(** * Properties *)

(** ** Lists *)

Section ListFacts.
Context {A B : Type}.
Variables (f : A -> B) (p q : A -> bool).

Lemma filter_all (l : list A) :
  Forall (fun x => p x = true) l -> filter p l = l.
Proof.
  induction 1 as [|x l Hx Hl IH]; simpl; [reflexivity|].
  rewrite Hx, IH. reflexivity.
Qed.

Lemma filter_perm l l' :
  Permutation l l' -> Permutation (filter p l) (filter p l').
Proof.
  induction 1 as [|x l l' H IH|x y l|l l' l'' H1 IH1 H2 IH2]; simpl.
  - constructor.
  - destruct (p x); [constructor|]; assumption.
  - destruct (p x), (p y); try apply Permutation_refl. apply perm_swap.
  - eapply perm_trans; eassumption.
Qed.

Lemma filter_comm l :
  filter p (filter q l) = filter q (filter p l).
Proof.
  induction l as [|x l IH]; simpl; [reflexivity|].
  destruct (p x) eqn:P, (q x) eqn:Q; simpl; rewrite ?P, ?Q, IH; reflexivity.
Qed.

Lemma NoDup_map_inj l :
  (forall x y, f x = f y -> x = y) -> NoDup l -> NoDup (map f l).
Proof.
  intros Hf. induction 1 as [|x l Hx Hl IH]; simpl; constructor; [|exact IH].
  intros Hin. apply in_map_iff in Hin. destruct Hin as (y & Ey & Hy).
  apply Hf in Ey. subst y. contradiction.
Qed.

Lemma NoDup_map_filter l :
  NoDup (map f l) -> NoDup (map f (filter p l)).
Proof.
  induction l as [|x l IH]; simpl; intros H; [constructor|].
  inv H. destruct (p x); simpl; [|auto].
  constructor; [|auto].
  intros Hin. apply in_map_iff in Hin. destruct Hin as (y & Ey & Hy).
  apply filter_In in Hy.
  match goal with K : ~ In (f x) _ |- _ => apply K end.
  rewrite <- Ey. apply in_map. apply Hy.
Qed.

Lemma incl_map_filter l :
  incl (map f (filter p l)) (map f l).
Proof.
  intros y Hy. apply in_map_iff in Hy. destruct Hy as (x & <- & Hx).
  apply filter_In in Hx. apply in_map. apply Hx.
Qed.
End ListFacts.

(** ** [Array.prototype.sort]: a permutation, whatever the comparator *)

Section Sort.
Context {A : Type}.
Variable cmp : A -> A -> number.

Lemma sort_insert_perm x l :
  Permutation (sort_insert cmp x l) (x :: l).
Proof.
  induction l as [|y l IH]; simpl; [apply Permutation_refl|].
  destruct (0 <? SortCompare cmp x y).
  - eapply perm_trans; [apply perm_skip, IH|apply perm_swap].
  - apply Permutation_refl.
Qed.

Lemma array_sort_perm l :
  Permutation (array_sort cmp l) l.
Proof.
  induction l as [|x l IH]; simpl; [constructor|].
  eapply perm_trans; [apply sort_insert_perm|apply perm_skip, IH].
Qed.
End Sort.

(** ** Decimal digits: [toString] and [parseInt] *)

Lemma is_digit_range c : is_digit c = true -> 0 <= digit_val c <= 9.
Proof.
  unfold is_digit, digit_val. intros H.
  apply andb_true_iff in H. destruct H as [H1 H2].
  apply Z.leb_le in H1. apply Z.leb_le in H2. lia.
Qed.

Lemma is_digit05_range c :
  is_digit05 c = true <-> is_digit c = true /\ digit_val c <= 5.
Proof.
  unfold is_digit05, is_digit, digit_val.
  rewrite !andb_true_iff, !Z.leb_le. lia.
Qed.

Lemma digit_not_colon c : is_digit c = true -> is_colon c = false.
Proof.
  unfold is_colon, char_eqb. intros H.
  destruct (Ascii.eqb c colon) eqn:E; [|reflexivity].
  apply Ascii.eqb_eq in E. subst c. discriminate H.
Qed.

Lemma all_digits_no_colon s : all_digits s -> no_colon s.
Proof.
  unfold all_digits, no_colon. intros H.
  eapply Forall_impl; [|exact H]. intros c. apply digit_not_colon.
Qed.

Lemma digit_char_spec d :
  0 <= d <= 9 ->
  is_digit (digit_char d) = true /\ digit_val (digit_char d) = d.
Proof.
  intros H.
  assert (D : d = 0 \/ d = 1 \/ d = 2 \/ d = 3 \/ d = 4 \/ d = 5 \/ d = 6
              \/ d = 7 \/ d = 8 \/ d = 9) by lia.
  repeat (destruct D as [D|D]; [subst d; split; reflexivity|]).
  subst d; split; reflexivity.
Qed.

Lemma dec_value_snoc s c :
  dec_value (s ++ [c]) = dec_value s * 10 + digit_val c.
Proof. unfold dec_value. rewrite fold_left_app. reflexivity. Qed.

Lemma fold_digits_nonneg s : forall acc,
  all_digits s -> 0 <= acc ->
  0 <= fold_left (fun a c => a * 10 + digit_val c) s acc.
Proof.
  induction s as [|c s IH]; intros acc Hd Ha; simpl; [exact Ha|].
  inversion Hd; subst. apply IH; [assumption|].
  pose proof (is_digit_range c H1). lia.
Qed.

Lemma dec_value_nonneg s : all_digits s -> 0 <= dec_value s.
Proof. intros H. apply fold_digits_nonneg; [exact H|lia]. Qed.

Lemma fold_digits_zero k : forall acc,
  fold_left (fun a c => a * 10 + digit_val c) (repeat "0"%char k) acc
  = acc * 10 ^ Z.of_nat k.
Proof.
  induction k as [|k IH]; intros acc.
  - simpl. lia.
  - cbn [repeat fold_left]. rewrite IH.
    change (digit_val "0") with 0.
    rewrite Nat2Z.inj_succ, Z.pow_succ_r by lia. lia.
Qed.

Lemma dec_value_zeros_app k s :
  dec_value (repeat "0"%char k ++ s) = dec_value s.
Proof.
  unfold dec_value. rewrite fold_left_app, fold_digits_zero. reflexivity.
Qed.

Lemma read_digits_dec s : forall seen acc,
  all_digits s ->
  read_digits dec_val 10 s seen acc
  = if seen || negb (is_empty s)
    then Some (fold_left (fun a c => a * 10 + digit_val c) s acc)
    else None.
Proof.
  induction s as [|c s IH]; intros seen acc Hd.
  - simpl. rewrite orb_false_r. reflexivity.
  - inversion Hd; subst. simpl. unfold dec_val. rewrite H1.
    rewrite IH by assumption. simpl. rewrite orb_true_r. reflexivity.
Qed.

Lemma is_digit_not_space c : is_digit c = true -> is_space c = false.
Proof.
  unfold is_digit, is_space. intros H.
  apply andb_true_iff in H. destruct H as [H1 H2].
  apply Z.leb_le in H1. apply Z.leb_le in H2.
  apply orb_false_iff. split.
  - apply andb_false_iff. right. apply Z.leb_gt. lia.
  - apply Z.eqb_neq. lia.
Qed.

Lemma is_digit_not_x c : is_digit c = true -> is_x c = false.
Proof.
  unfold is_digit, is_x. intros H.
  apply andb_true_iff in H. destruct H as [H1 H2].
  apply Z.leb_le in H1. apply Z.leb_le in H2.
  apply orb_false_iff. split; apply Z.eqb_neq; lia.
Qed.

Lemma is_digit_not_sign c :
  is_digit c = true -> (code c =? 45) = false /\ (code c =? 43) = false.
Proof.
  unfold is_digit. intros H.
  apply andb_true_iff in H. destruct H as [H1 H2].
  apply Z.leb_le in H1. apply Z.leb_le in H2.
  split; apply Z.eqb_neq; lia.
Qed.

(** [parseInt] of a non-empty string of digits is the number it denotes. *)
Lemma parseInt_digits s :
  all_digits s -> s <> [] -> parseInt s = Num (dec_value s).
Proof.
  intros Hd Hne. destruct s as [|c s]; [contradiction|].
  inversion Hd as [|? ? Hc Hs]; subst.
  unfold parseInt. cbn [skip_spaces].
  rewrite (is_digit_not_space c Hc).
  destruct (is_digit_not_sign c Hc) as [E1 E2]. rewrite E1, E2.
  assert (P : parse_magnitude (c :: s) = Some (dec_value (c :: s))).
  { unfold parse_magnitude. destruct s as [|x s'].
    - rewrite read_digits_dec by assumption. reflexivity.
    - inversion Hs; subst. rewrite (is_digit_not_x x) by assumption.
      rewrite andb_false_r. rewrite read_digits_dec by assumption.
      reflexivity. }
  rewrite P. f_equal. lia.
Qed.

Lemma digits_fuel_spec fuel : forall n,
  0 <= n < 2 ^ Z.of_nat (S fuel) ->
  all_digits (digits_fuel (S fuel) n)
  /\ dec_value (digits_fuel (S fuel) n) = n
  /\ digits_fuel (S fuel) n <> [].
Proof.
  induction fuel as [|f IH]; intros n Hn;
    assert (Hm : 0 <= n mod 10 <= 9)
      by (pose proof (Z.mod_pos_bound n 10); lia);
    destruct (digit_char_spec _ Hm) as [Dd Dv];
    cbn [digits_fuel]; destruct (n <? 10) eqn:E.
  1, 3: apply Z.ltb_lt in E; simpl; repeat split;
    [ constructor; [exact Dd|constructor]
    | unfold dec_value; simpl; rewrite Dv; apply Z.mod_small; lia
    | discriminate ].
  - apply Z.ltb_ge in E. change (2 ^ Z.of_nat 1) with 2 in Hn. lia.
  - apply Z.ltb_ge in E.
    assert (Hq : 0 <= n / 10 < 2 ^ Z.of_nat (S f)).
    { split; [apply Z.div_pos; lia|].
      apply Z.div_lt_upper_bound; [lia|].
      rewrite (Nat2Z.inj_succ (S f)), Z.pow_succ_r in Hn by lia. lia. }
    destruct (IH _ Hq) as (A & B & C).
    change ((if n / 10 <? 10 then [] else digits_fuel f (n / 10 / 10))
              ++ [digit_char ((n / 10) mod 10)])
      with (digits_fuel (S f) (n / 10)).
    repeat split.
    + apply Forall_app. split; [exact A|].
      constructor; [exact Dd|constructor].
    + rewrite dec_value_snoc, B, Dv.
      pose proof (Z.div_mod n 10). lia.
    + intros Habs. apply app_eq_nil in Habs. destruct Habs; discriminate.
Qed.

Lemma digits_spec n :
  0 <= n ->
  all_digits (digits n) /\ dec_value (digits n) = n /\ digits n <> [].
Proof.
  intros Hn. unfold digits. apply digits_fuel_spec.
  split; [exact Hn|].
  rewrite Nat2Z.inj_succ, Z2Nat.id by apply Z.log2_nonneg.
  destruct (Z.eq_dec n 0) as [->|Hz]; [reflexivity|].
  apply Z.log2_spec. lia.
Qed.

Lemma toString_nonneg n : 0 <= n -> toString n = digits n.
Proof.
  intros H. unfold toString.
  destruct (n <? 0) eqn:E; [apply Z.ltb_lt in E; lia|reflexivity].
Qed.

Lemma toString_spec n :
  0 <= n ->
  all_digits (toString n) /\ dec_value (toString n) = n /\ toString n <> [].
Proof. intros H. rewrite toString_nonneg by exact H. apply digits_spec, H. Qed.

(** ** Splitting on the colon *)

Lemma split_colon_no_colon s : no_colon s -> split_colon s = [s].
Proof.
  induction s as [|c s IH]; intros H; [reflexivity|].
  inversion H as [|? ? Hc Hs]; subst. simpl. rewrite Hc, (IH Hs). reflexivity.
Qed.

Lemma split_colon_app a b :
  no_colon a -> split_colon (a ++ colon :: b) = a :: split_colon b.
Proof.
  induction a as [|c a IH]; intros H.
  - reflexivity.
  - inversion H as [|? ? Hc Ha]; subst. simpl. rewrite Hc, (IH Ha).
    reflexivity.
Qed.

Lemma split_colon_parts s : Forall no_colon (split_colon s).
Proof.
  induction s as [|c s IH]; simpl.
  - repeat constructor.
  - destruct (is_colon c) eqn:E.
    + constructor; [constructor|exact IH].
    + destruct (split_colon s) as [|p ps]; [repeat constructor; exact E|].
      inversion IH; subst. constructor; [|assumption].
      constructor; assumption.
Qed.

(** The parts of a string of digits and colons are strings of digits. *)
Lemma split_colon_digits s :
  Forall (fun c => is_digit c || is_colon c = true) s ->
  Forall all_digits (split_colon s).
Proof.
  induction s as [|c s IH]; intros H; simpl.
  - repeat constructor.
  - inversion H as [|? ? Hc Hs]; subst. specialize (IH Hs).
    destruct (is_colon c) eqn:E.
    + constructor; [constructor|exact IH].
    + rewrite orb_false_r in Hc.
      destruct (split_colon s) as [|p ps]; [repeat constructor; exact Hc|].
      inversion IH; subst. constructor; [|assumption].
      constructor; assumption.
Qed.

Lemma clean_input_chars input :
  Forall (fun c => is_digit c || is_colon c = true) (clean_input input).
Proof.
  unfold clean_input. apply Forall_forall. intros c Hc.
  apply filter_In in Hc. apply Hc.
Qed.

Lemma timeToSeconds_two a b :
  no_colon a -> no_colon b ->
  timeToSeconds (a ++ [colon] ++ b)
  = num_add (num_mul (parseInt a) (Num 60)) (parseInt b).
Proof.
  intros Ha Hb. unfold timeToSeconds. simpl app.
  rewrite split_colon_app, split_colon_no_colon by assumption. reflexivity.
Qed.

Lemma timeToSeconds_three a b c :
  no_colon a -> no_colon b -> no_colon c ->
  timeToSeconds (a ++ [colon] ++ b ++ [colon] ++ c)
  = num_add (num_add (num_mul (parseInt a) (Num 3600))
                     (num_mul (parseInt b) (Num 60)))
            (parseInt c).
Proof.
  intros Ha Hb Hc. unfold timeToSeconds. simpl app.
  rewrite !split_colon_app, split_colon_no_colon by assumption. reflexivity.
Qed.

(** ** Padding *)

Lemma all_digits_zeros k : all_digits (repeat "0"%char k).
Proof. induction k; simpl; constructor; [reflexivity|assumption]. Qed.

Lemma padStart_digits n s : all_digits s -> all_digits (padStart n s).
Proof.
  intros H. unfold padStart. apply Forall_app. split;
    [apply all_digits_zeros|exact H].
Qed.

Lemma padStart_value n s : dec_value (padStart n s) = dec_value s.
Proof. unfold padStart. apply dec_value_zeros_app. Qed.

Lemma padStart_nonempty n s : s <> [] -> padStart n s <> [].
Proof.
  unfold padStart. intros H E. apply app_eq_nil in E. tauto.
Qed.

Lemma padStart_length n s :
  List.length (padStart n s) = Nat.max n (List.length s).
Proof.
  unfold padStart. rewrite length_app, repeat_length. lia.
Qed.

(** ** [formatSeconds] and [timeToSeconds] *)

(** The fields of a formatted time: digits denoting the field's value. *)
Lemma field_parse n :
  0 <= n ->
  parseInt (toString n) = Num n /\ no_colon (toString n).
Proof.
  intros H. destruct (toString_spec n H) as (A & B & C). split.
  - rewrite parseInt_digits by assumption. rewrite B. reflexivity.
  - apply all_digits_no_colon, A.
Qed.

Lemma padded_field_parse n :
  0 <= n ->
  parseInt (padStart 2 (toString n)) = Num n
  /\ no_colon (padStart 2 (toString n)).
Proof.
  intros H. destruct (toString_spec n H) as (A & B & C). split.
  - rewrite parseInt_digits.
    + rewrite padStart_value, B. reflexivity.
    + apply padStart_digits, A.
    + apply padStart_nonempty, C.
  - apply all_digits_no_colon, padStart_digits, A.
Qed.

(** Formatting a count of seconds and reading it back gives the count. *)
Lemma timeToSeconds_formatSeconds s :
  0 <= s -> timeToSeconds (formatSeconds s) = Num s.
Proof.
  intros Hs. unfold formatSeconds.
  rewrite !Z.rem_mod_nonneg by lia.
  assert (Hh : 0 <= s / 3600) by (apply Z.div_pos; lia).
  assert (Hm : 0 <= s mod 3600 / 60)
    by (apply Z.div_pos; [apply Z.mod_pos_bound|]; lia).
  assert (Hc : 0 <= s mod 60) by (apply Z.mod_pos_bound; lia).
  destruct (field_parse _ Hh) as [Ph Nh].
  destruct (field_parse _ Hm) as [Pm Nm].
  destruct (padded_field_parse _ Hm) as [Pm' Nm'].
  destruct (padded_field_parse _ Hc) as [Pc Nc].
  destruct (0 <? s / 3600) eqn:E.
  - rewrite timeToSeconds_three by assumption.
    rewrite Ph, Pm', Pc. simpl. f_equal.
    Z.to_euclidean_division_equations. lia.
  - rewrite timeToSeconds_two by assumption.
    rewrite Pm, Pc. simpl. f_equal.
    apply Z.ltb_ge in E.
    Z.to_euclidean_division_equations. lia.
Qed.

(** ** [formatTimeString] *)

Lemma nth_part_digits parts i :
  Forall all_digits parts -> all_digits (nth i parts []).
Proof.
  intros H. destruct (nth_in_or_default i parts []) as [Hin|Hd].
  - eapply Forall_forall in H; eassumption.
  - rewrite Hd. constructor.
Qed.

Lemma or_else_digits a b :
  all_digits a -> all_digits b -> b <> [] ->
  all_digits (or_else a b) /\ or_else a b <> [].
Proof.
  intros Ha Hb Hne. destruct a; simpl; split; try assumption. discriminate.
Qed.

Lemma pad_truncate_digits s :
  all_digits s ->
  all_digits (substring0 2 (padEnd 2 s)) /\ substring0 2 (padEnd 2 s) <> [].
Proof.
  intros H. unfold substring0, padEnd.
  destruct s as [|a [|b s]]; simpl.
  - split; [repeat constructor|discriminate].
  - inversion H; subst. split; [repeat constructor; assumption|discriminate].
  - inversion H as [|? ? Ha H']; subst. inversion H'; subst.
    split; [repeat constructor; assumption|discriminate].
Qed.

Lemma parseInt_field s :
  all_digits s -> s <> [] ->
  exists v, parseInt s = Num v /\ 0 <= v /\ no_colon s.
Proof.
  intros Hd Hne. exists (dec_value s). split; [|split].
  - apply parseInt_digits; assumption.
  - apply dec_value_nonneg, Hd.
  - apply all_digits_no_colon, Hd.
Qed.

(** The total [formatTimeString] computes is a number, and it is what
    [timeToSeconds] reads from the cleaned string. *)
Lemma sanitize_total input :
  exists t, snd (sanitize input) = Num t /\ 0 <= t
            /\ timeToSeconds (fst (sanitize input)) = Num t.
Proof.
  unfold sanitize.
  pose proof (split_colon_digits _ (clean_input_chars input)) as Hp.
  set (parts := split_colon (clean_input input)) in *.
  assert (D0 : all_digits (js "0") /\ js "0" <> [])
    by (split; [repeat constructor|discriminate]).
  assert (D00 : all_digits (js "00") /\ js "00" <> [])
    by (split; [repeat constructor|discriminate]).
  destruct (List.length parts <=? 2)%nat.
  - destruct (or_else_digits _ _ (nth_part_digits parts 0 Hp)
                (proj1 D0) (proj2 D0)) as [Am Nm].
    assert (As : all_digits
                   (if (1 <? List.length parts)%nat
                    then substring0 2 (padEnd 2 (nth 1 parts []))
                    else js "00")
                 /\ (if (1 <? List.length parts)%nat
                     then substring0 2 (padEnd 2 (nth 1 parts []))
                     else js "00") <> []).
    { destruct (1 <? List.length parts)%nat; [|exact D00].
      apply pad_truncate_digits, nth_part_digits, Hp. }
    destruct As as [As Ns].
    destruct (parseInt_field _ Am Nm) as (vm & Pm & Bm & Cm).
    destruct (parseInt_field _ As Ns) as (vs & Ps & Bs & Cs).
    exists (vm * 60 + vs). cbn [fst snd].
    rewrite timeToSeconds_two by assumption.
    rewrite Pm, Ps. simpl. repeat split; lia.
  - destruct (or_else_digits _ _ (nth_part_digits parts 0 Hp)
                (proj1 D0) (proj2 D0)) as [Ah Nh].
    destruct (or_else_digits _ _ (nth_part_digits parts 1 Hp)
                (proj1 D00) (proj2 D00)) as [Am Nm].
    destruct (pad_truncate_digits _ (nth_part_digits parts 2 Hp)) as [At Nt].
    destruct (or_else_digits _ _ At (proj1 D00) (proj2 D00)) as [As Ns].
    destruct (parseInt_field _ Ah Nh) as (vh & Ph & Bh & Ch).
    destruct (parseInt_field _ Am Nm) as (vm & Pm & Bm & Cm).
    destruct (parseInt_field _ As Ns) as (vs & Ps & Bs & Cs).
    exists (vh * 3600 + vm * 60 + vs). cbn [fst snd].
    rewrite timeToSeconds_three by assumption.
    rewrite Ph, Pm, Ps. simpl. repeat split; lia.
Qed.

Lemma formatTimeString_cases input d :
  formatTimeString input d
  = if num_gt (snd (sanitize input)) (Num d) && (0 <? d)
    then formatSeconds d
    else fst (sanitize input).
Proof.
  unfold formatTimeString. destruct (sanitize input). reflexivity.
Qed.

(** With a known duration the sanitized input never reads beyond it. *)
Lemma formatTimeString_clamp input d :
  0 < d ->
  exists t, timeToSeconds (formatTimeString input d) = Num t /\ 0 <= t <= d.
Proof.
  intros Hd. rewrite formatTimeString_cases.
  destruct (sanitize_total input) as (t & Et & Ht & Es).
  rewrite Et. simpl num_gt.
  destruct (d <? t) eqn:E; simpl.
  - assert (Hd' : (0 <? d) = true) by (apply Z.ltb_lt; exact Hd).
    rewrite Hd'. exists d.
    rewrite timeToSeconds_formatSeconds by lia. split; [reflexivity|lia].
  - apply Z.ltb_ge in E. exists t. split; [exact Es|lia].
Qed.



(** ** Regular expressions: the language a [test] decides *)

Lemma nullable_lang r : nullable r = true <-> lang r [].
Proof.
  induction r as [| |p|a IHa b IHb|a IHa b IHb|a IHa]; simpl.
  - split; [discriminate|intros H; inv H].
  - split; auto.
  - split; [discriminate|intros H; inv H].
  - rewrite andb_true_iff, IHa, IHb. split.
    + intros [Ha Hb]. change (@nil ascii) with (@nil ascii ++ []). auto.
    + intros H. inv H.
      match goal with E : _ ++ _ = [] |- _ =>
        apply app_eq_nil in E; destruct E; subst end. auto.
  - rewrite orb_true_iff, IHa, IHb. split.
    + intros [H|H]; auto.
    + intros H. inv H; auto.
  - split; auto.
Qed.

Lemma deriv_sound c r : forall s, lang (deriv c r) s -> lang r (c :: s).
Proof.
  induction r as [| |p|a IHa b IHb|a IHa b IHb|a IHa]; simpl; intros s H.
  - inv H.
  - inv H.
  - destruct (p c) eqn:E; inv H. auto.
  - destruct (nullable a) eqn:N.
    + inv H.
      * match goal with K : lang (Seq _ _) _ |- _ => inv K end.
        change (c :: ?x ++ ?y) with ((c :: x) ++ y). auto.
      * apply nullable_lang in N.
        change (c :: s) with ([] ++ c :: s). auto.
    + inv H. change (c :: ?x ++ ?y) with ((c :: x) ++ y). auto.
  - inv H; auto.
  - inv H. change (c :: ?x ++ ?y) with ((c :: x) ++ y). auto.
Qed.

Lemma deriv_complete r w :
  lang r w -> forall c s, w = c :: s -> lang (deriv c r) s.
Proof.
  induction 1 as [|p x Hp|a b s t Ha IHa Hb IHb|a b s Ha IHa|a b s Hb IHb
                 |a|a s t Ha IHa Hs IHs]; intros c u E; simpl.
  - discriminate.
  - inv E. rewrite Hp. auto.
  - destruct s as [|x s'].
    + simpl in E. subst t.
      assert (N : nullable a = true) by (apply nullable_lang; exact Ha).
      rewrite N. apply lang_alt_r. apply IHb. reflexivity.
    + simpl in E. inv E.
      assert (K : lang (Seq (deriv c a) b) (s' ++ t))
        by (constructor; [apply IHa; reflexivity|exact Hb]).
      destruct (nullable a); auto.
  - apply lang_alt_l. eapply IHa; eassumption.
  - apply lang_alt_r. eapply IHb; eassumption.
  - discriminate.
  - destruct s as [|x s'].
    + simpl in E. apply IHs. exact E.
    + simpl in E. inv E. constructor; [apply IHa; reflexivity|exact Hs].
Qed.

(** [test] decides the language. *)
Lemma test_lang s : forall r, test r s = true <-> lang r s.
Proof.
  induction s as [|c s IH]; intros r; simpl.
  - apply nullable_lang.
  - rewrite IH. split.
    + apply deriv_sound.
    + intros H. eapply deriv_complete; [exact H|reflexivity].
Qed.

(** *** The language of [timeRegex] *)

Lemma lang_cls_inv p s :
  lang (Cls p) s <-> exists c, s = [c] /\ p c = true.
Proof.
  split.
  - intros H. inv H. eauto.
  - intros (c & -> & H). auto.
Qed.

Lemma lang_seq_inv a b w :
  lang (Seq a b) w <-> exists s t, w = s ++ t /\ lang a s /\ lang b t.
Proof.
  split.
  - intros H. inv H. eauto.
  - intros (s & t & -> & Ha & Hb). auto.
Qed.

Lemma lang_opt_inv a w : lang (Opt a) w <-> lang a w \/ w = [].
Proof.
  unfold Opt. split.
  - intros H. inv H; [auto|].
    match goal with K : lang Eps _ |- _ => inv K end. auto.
  - intros [H| ->]; auto.
Qed.

Lemma lang_star_digits_fwd r w :
  lang r w -> r = Star (Cls is_digit) -> all_digits w.
Proof.
  induction 1 as [|p x Hp|a b s t Ha IHa Hb IHb|a b s Ha IHa|a b s Hb IHb
                 |a|a s t Ha IHa Hs IHs]; intros E; try discriminate.
  - constructor.
  - inv E. apply Forall_app. split; [|apply IHs; reflexivity].
    inv Ha. constructor; [assumption|constructor].
Qed.

Lemma lang_star_digits w : lang (Star (Cls is_digit)) w <-> all_digits w.
Proof.
  split.
  - intros H. eapply lang_star_digits_fwd; [exact H|reflexivity].
  - induction 1 as [|c w Hc Hw IH]; [auto|].
    change (c :: w) with ([c] ++ w). auto.
Qed.

Lemma lang_plus_digits w :
  lang (Plus (Cls is_digit)) w <-> all_digits w /\ w <> [].
Proof.
  unfold Plus. rewrite lang_seq_inv. split.
  - intros (s & t & -> & Hs & Ht). apply lang_cls_inv in Hs.
    destruct Hs as (c & -> & Hc). apply lang_star_digits in Ht. split.
    + constructor; assumption.
    + discriminate.
  - intros [Hd Hne]. destruct w as [|c w]; [contradiction|].
    inv Hd. exists [c], w. repeat split; [auto|].
    apply lang_star_digits. assumption.
Qed.

Lemma dec_value_one c : dec_value [c] = digit_val c.
Proof. reflexivity. Qed.

Lemma dec_value_two c d : dec_value [c; d] = digit_val c * 10 + digit_val d.
Proof. reflexivity. Qed.

(** [[0-5]\d]: exactly two digits with value at most 59. *)
Lemma lang_seconds w :
  lang (Seq (Cls is_digit05) (Cls is_digit)) w
  <-> all_digits w /\ List.length w = 2%nat /\ 0 <= dec_value w <= 59.
Proof.
  rewrite lang_seq_inv. split.
  - intros (s & t & -> & Hs & Ht).
    apply lang_cls_inv in Hs. destruct Hs as (c & -> & Hc).
    apply lang_cls_inv in Ht. destruct Ht as (d & -> & Hd).
    apply is_digit05_range in Hc. destruct Hc as [Hc Hc5].
    pose proof (is_digit_range _ Hc). pose proof (is_digit_range _ Hd).
    simpl app. rewrite dec_value_two. repeat split; try lia.
    repeat constructor; assumption.
  - intros (Hd & Hl & Hv).
    destruct w as [|c [|d [|e w]]]; try discriminate Hl.
    inv Hd. match goal with K : Forall _ [d] |- _ => inv K end.
    rewrite dec_value_two in Hv.
    pose proof (is_digit_range c ltac:(assumption)).
    pose proof (is_digit_range d ltac:(assumption)).
    exists [c], [d]. repeat split.
    + constructor. apply is_digit05_range. split; [assumption|lia].
    + constructor. assumption.
Qed.

(** [[0-5]?\d]: one or two digits with value at most 59. *)
Lemma lang_minutes w :
  lang (Seq (Opt (Cls is_digit05)) (Cls is_digit)) w
  <-> all_digits w
      /\ (List.length w = 1%nat \/ List.length w = 2%nat)
      /\ 0 <= dec_value w <= 59.
Proof.
  rewrite lang_seq_inv. split.
  - intros (s & t & -> & Hs & Ht).
    apply lang_cls_inv in Ht. destruct Ht as (d & -> & Hd).
    pose proof (is_digit_range _ Hd).
    apply lang_opt_inv in Hs. destruct Hs as [Hs| ->].
    + apply lang_cls_inv in Hs. destruct Hs as (c & -> & Hc).
      apply is_digit05_range in Hc. destruct Hc as [Hc Hc5].
      pose proof (is_digit_range _ Hc).
      simpl app. rewrite dec_value_two. repeat split; try lia; auto.
      repeat constructor; assumption.
    + simpl app. rewrite dec_value_one. repeat split; try lia; auto.
      repeat constructor; assumption.
  - intros (Hd & Hl & Hv).
    destruct w as [|c [|d [|e w]]]; simpl in Hl; try lia.
    + inv Hd. exists [], [c]. repeat split.
      * apply lang_opt_inv. auto.
      * constructor. assumption.
    + inv Hd. match goal with K : Forall _ [d] |- _ => inv K end.
      rewrite dec_value_two in Hv.
      pose proof (is_digit_range c ltac:(assumption)).
      pose proof (is_digit_range d ltac:(assumption)).
      exists [c], [d]. repeat split.
      * apply lang_opt_inv. left. constructor.
        apply is_digit05_range. split; [assumption|lia].
      * constructor. assumption.
Qed.

Lemma is_colon_eq c : is_colon c = true <-> c = colon.
Proof. unfold is_colon, char_eqb. apply Ascii.eqb_eq. Qed.

(** [(\d+:)?]: nothing, or digits followed by a colon. *)
Lemma lang_hours w :
  lang (Opt (Seq (Plus (Cls is_digit)) (Cls is_colon))) w <-> hours_prefix w.
Proof.
  unfold hours_prefix. rewrite lang_opt_inv, lang_seq_inv. split.
  - intros [(s & t & -> & Hs & Ht)| ->]; [right|left; reflexivity].
    apply lang_plus_digits in Hs. destruct Hs as [Hd Hne].
    apply lang_cls_inv in Ht. destruct Ht as (c & -> & Hc).
    apply is_colon_eq in Hc. subst c. exists s. auto.
  - intros [->|(ds & Hne & Hd & ->)]; [right; reflexivity|left].
    exists ds, [colon]. repeat split.
    + apply lang_plus_digits. auto.
    + constructor. reflexivity.
Qed.

(** The strings [timeRegex] accepts are those of the commit grammar. *)
Lemma timeRegex_grammar t : test timeRegex t = true <-> commit_grammar t.
Proof.
  rewrite test_lang. unfold timeRegex, commit_grammar.
  rewrite lang_seq_inv. split.
  - intros (h & r & -> & Hh & Hr).
    apply lang_seq_inv in Hr. destruct Hr as (m & r' & -> & Hm & Hr).
    apply lang_seq_inv in Hr. destruct Hr as (c & s & -> & Hc & Hs).
    apply lang_cls_inv in Hc. destruct Hc as (x & -> & Hx).
    apply is_colon_eq in Hx. subst x.
    apply lang_hours in Hh. apply lang_minutes in Hm.
    apply lang_seconds in Hs.
    exists h, m, s. tauto.
  - intros (h & m & s & -> & Hh & Hm & Hlm & Hvm & Hs & Hls & Hvs).
    exists h, (m ++ [colon] ++ s). repeat split.
    + apply lang_hours. exact Hh.
    + constructor; [apply lang_minutes; tauto|].
      constructor; [constructor; reflexivity|].
      apply lang_seconds. tauto.
Qed.

(** ** The formatter's output passes the commit check *)

Lemma digits_length_small n :
  0 <= n < 100 ->
  List.length (digits n) = if n <? 10 then 1%nat else 2%nat.
Proof.
  intros Hn. unfold digits. cbn [digits_fuel].
  destruct (n <? 10) eqn:E; [reflexivity|].
  apply Z.ltb_ge in E.
  assert (L : 3 <= Z.log2 n).
  { change 3 with (Z.log2 8). apply Z.log2_le_mono. lia. }
  destruct (Z.to_nat (Z.log2 n)) as [|f] eqn:F; [lia|].
  cbn [digits_fuel].
  assert (Q : (n / 10 <? 10) = true).
  { apply Z.ltb_lt. apply Z.div_lt_upper_bound; lia. }
  rewrite Q. reflexivity.
Qed.

(** A field below 60 prints as one or two digits, padded as exactly two. *)
Lemma field_shape n :
  0 <= n <= 59 ->
  all_digits (toString n)
  /\ (List.length (toString n) = 1%nat \/ List.length (toString n) = 2%nat)
  /\ dec_value (toString n) = n
  /\ all_digits (padStart 2 (toString n))
  /\ List.length (padStart 2 (toString n)) = 2%nat
  /\ dec_value (padStart 2 (toString n)) = n.
Proof.
  intros Hn. assert (H0 : 0 <= n) by lia.
  destruct (toString_spec n H0) as (A & B & C).
  assert (L : List.length (toString n) = 1%nat
              \/ List.length (toString n) = 2%nat).
  { rewrite toString_nonneg by exact H0.
    rewrite digits_length_small by lia. destruct (n <? 10); auto. }
  repeat split; try assumption.
  - apply padStart_digits, A.
  - rewrite padStart_length. lia.
  - rewrite padStart_value. exact B.
Qed.

Lemma formatSeconds_grammar s : 0 <= s -> commit_grammar (formatSeconds s).
Proof.
  intros Hs. unfold formatSeconds.
  rewrite !Z.rem_mod_nonneg by lia.
  assert (Hm : 0 <= s mod 3600 / 60 <= 59)
    by (Z.to_euclidean_division_equations; lia).
  assert (Hc : 0 <= s mod 60 <= 59)
    by (Z.to_euclidean_division_equations; lia).
  destruct (field_shape _ Hm) as (M1 & M2 & M3 & M4 & M5 & M6).
  destruct (field_shape _ Hc) as (C1 & C2 & C3 & C4 & C5 & C6).
  destruct (0 <? s / 3600) eqn:E.
  - apply Z.ltb_lt in E.
    destruct (toString_spec (s / 3600) ltac:(lia)) as (H1 & H2 & H3).
    exists (toString (s / 3600) ++ [colon]),
      (padStart 2 (toString (s mod 3600 / 60))),
      (padStart 2 (toString (s mod 60))).
    rewrite M6, C6. repeat split; try assumption; try lia.
    + rewrite <- !app_assoc. reflexivity.
    + right. exists (toString (s / 3600)). auto.
  - exists [], (toString (s mod 3600 / 60)),
      (padStart 2 (toString (s mod 60))).
    rewrite M3, C6. repeat split; try assumption; try lia.
    left. reflexivity.
Qed.

(** ** [Array.prototype.sort] with [bySeconds] *)

Lemma sortedView_perm l : Permutation (sortedView l) l.
Proof. apply array_sort_perm. Qed.

(** An entry moves behind another one only when its seconds are larger. *)
Lemma swap_seconds x y :
  (0 <? SortCompare bySeconds x y) = true ->
  exists vx vy, seconds x = Num vx /\ seconds y = Num vy /\ vy < vx.
Proof.
  unfold SortCompare, bySeconds, num_sub. intros H.
  destruct (seconds x) as [|vx]; [discriminate|].
  destruct (seconds y) as [|vy]; [discriminate|].
  apply Z.ltb_lt in H. exists vx, vy. repeat split; lia.
Qed.

Lemma keep_seconds x y vx vy :
  (0 <? SortCompare bySeconds x y) = false ->
  seconds x = Num vx -> seconds y = Num vy -> vx <= vy.
Proof.
  unfold SortCompare, bySeconds, num_sub. intros H Ex Ey.
  rewrite Ex, Ey in H. apply Z.ltb_ge in H. lia.
Qed.

(** Stability: the entries of each second count keep their order. *)
Lemma sort_insert_stable k x l :
  filter (has_seconds k) (sort_insert bySeconds x l)
  = filter (has_seconds k) (x :: l).
Proof.
  induction l as [|y l IH]; [reflexivity|].
  cbn [sort_insert].
  destruct (0 <? SortCompare bySeconds x y) eqn:E; [|reflexivity].
  destruct (swap_seconds _ _ E) as (vx & vy & Ex & Ey & Hlt).
  cbn [filter] in *. rewrite IH.
  assert (Hx : has_seconds k x = (vx =? k))
    by (unfold has_seconds; rewrite Ex; reflexivity).
  assert (Hy : has_seconds k y = (vy =? k))
    by (unfold has_seconds; rewrite Ey; reflexivity).
  rewrite Hx, Hy.
  destruct (vx =? k) eqn:Kx; destruct (vy =? k) eqn:Ky; try reflexivity.
  apply Z.eqb_eq in Kx. apply Z.eqb_eq in Ky. lia.
Qed.

Lemma sortedView_stable k l :
  filter (has_seconds k) (sortedView l) = filter (has_seconds k) l.
Proof.
  unfold sortedView. induction l as [|x l IH]; [reflexivity|].
  cbn [array_sort]. rewrite sort_insert_stable.
  cbn [filter]. rewrite IH. reflexivity.
Qed.

Lemma le_seconds_trans a b c :
  le_seconds a b -> le_seconds b c -> le_seconds a c.
Proof.
  unfold le_seconds, num_le.
  destruct (seconds a), (seconds b), (seconds c); try discriminate.
  rewrite !Z.leb_le. lia.
Qed.

Lemma sort_insert_ascending x l :
  numeric x -> Forall numeric l -> ascending l ->
  ascending (sort_insert bySeconds x l).
Proof.
  unfold ascending. intros [vx Ex] Hn Hs.
  induction l as [|y l IH]; simpl.
  - repeat constructor.
  - inv Hn. inv Hs.
    match goal with K : numeric y |- _ => destruct K as [vy Ey] end.
    destruct (0 <? SortCompare bySeconds x y) eqn:E.
    + constructor; [apply IH; assumption|].
      eapply Permutation_Forall;
        [apply Permutation_sym, sort_insert_perm|].
      constructor; [|assumption].
      destruct (swap_seconds _ _ E) as (ux & uy & Ux & Uy & Hlt).
      unfold le_seconds. rewrite Ux, Uy. simpl. apply Z.leb_le. lia.
    + pose proof (keep_seconds _ _ _ _ E Ex Ey) as Hle.
      assert (Lxy : le_seconds x y).
      { unfold le_seconds. rewrite Ex, Ey. simpl. apply Z.leb_le. exact Hle. }
      constructor; [constructor; assumption|].
      constructor; [exact Lxy|].
      eapply Forall_impl; [|eassumption].
      intros z Hz. eapply le_seconds_trans; eassumption.
Qed.

Lemma sortedView_ascending l : Forall numeric l -> ascending (sortedView l).
Proof.
  unfold sortedView. induction 1 as [|x l Hx Hl IH]; simpl.
  - constructor.
  - apply sort_insert_ascending; [exact Hx| |exact IH].
    eapply Permutation_Forall;
      [apply Permutation_sym, array_sort_perm|exact Hl].
Qed.

(** ** The ledger *)

(** A time that passes the commit check reads as a number. *)
Lemma validated_time_numeric t :
  test timeRegex t = true -> exists v, timeToSeconds t = Num v /\ 0 <= v.
Proof.
  intros H. apply timeRegex_grammar in H.
  destruct H as (h & m & s & -> & Hh & Hm & Hlm & Hvm & Hs & Hls & Hvs).
  assert (Nm : m <> []) by (destruct m; [simpl in Hlm; lia|discriminate]).
  assert (Ns : s <> []) by (destruct s; [discriminate|discriminate]).
  destruct (parseInt_field _ Hm Nm) as (vm & Pm & Bm & Cm).
  destruct (parseInt_field _ Hs Ns) as (vs & Ps & Bs & Cs).
  destruct Hh as [->|(ds & Nd & Hd & ->)].
  - exists (vm * 60 + vs). simpl app.
    change (m ++ colon :: s) with (m ++ [colon] ++ s).
    rewrite timeToSeconds_two by assumption. rewrite Pm, Ps. simpl.
    split; [reflexivity|lia].
  - destruct (parseInt_field _ Hd Nd) as (vh & Ph & Bh & Ch).
    exists (vh * 3600 + vm * 60 + vs).
    rewrite <- app_assoc.
    rewrite timeToSeconds_three by assumption. rewrite Ph, Pm, Ps. simpl.
    split; [reflexivity|lia].
Qed.

(** [addTimestamp] either leaves the list alone, or appends the record
    built from a validated time. *)
Lemma addTimestamp_cases md now t d l :
  (addTimestamp md now t d l = (l, None)
   \/ exists msg, addTimestamp md now t d l = (l, Some (ToastError msg)))
  \/ (test timeRegex t = true /\ md <> None /\ t <> [] /\ d <> []
      /\ addTimestamp md now t d l
         = (l ++ [{| id := toString now; time := t; description := d;
                     seconds := timeToSeconds t |}],
            Some (ToastSuccess (js "Timestamp added")))).
Proof.
  unfold addTimestamp. destruct md as [m|]; [|left; left; reflexivity].
  destruct (is_empty t || is_empty d) eqn:E; [left; right; eauto|].
  apply orb_false_iff in E. destruct E as [Et Ed].
  destruct (test timeRegex t) eqn:R; simpl; [|left; right; eauto].
  right. repeat split; try discriminate.
  - intros ->. discriminate.
  - intros ->. discriminate.
Qed.

(** A sort (by the render or by the copy) permutes the stored array and
    keeps the order within each second count. *)
Lemma render_array md l :
  snd (renderTimestamps md l) = l \/ snd (renderTimestamps md l) = sortedView l.
Proof.
  unfold renderTimestamps. destruct md; [|auto].
  destruct (0 <? List.length l)%nat; auto.
Qed.

Lemma copy_array_cases l :
  copy_array (copyToClipboard l) = l
  \/ copy_array (copyToClipboard l) = sortedView l.
Proof.
  unfold copyToClipboard. destruct (List.length l =? 0)%nat; auto.
Qed.

Lemma step_metadata st ev :
  metadata (step st ev)
  = match ev with EvLoad md => Some md | _ => metadata st end.
Proof. destruct ev; reflexivity. Qed.

(** One event, seen on the stored array and on the insertion order. *)
Lemma step_tracks st g ev :
  metadata st = metadata g ->
  Permutation (timestamps st) (timestamps g) ->
  (forall k, filter (has_seconds k) (timestamps st)
             = filter (has_seconds k) (timestamps g)) ->
  Forall numeric (timestamps st) ->
  metadata (step st ev) = metadata (step_inserted g ev)
  /\ Permutation (timestamps (step st ev)) (timestamps (step_inserted g ev))
  /\ (forall k, filter (has_seconds k) (timestamps (step st ev))
                = filter (has_seconds k) (timestamps (step_inserted g ev)))
  /\ Forall numeric (timestamps (step st ev)).
Proof.
  intros Hmd Hp Hf Hn. destruct ev as [md|now t d|rid| |]; cbn [step step_inserted].
  - cbn. repeat split; auto.
  - cbn [metadata timestamps]. rewrite <- Hmd.
    destruct (addTimestamp_cases (metadata st) now t d (timestamps st))
      as [[E|[msg E]]|(R & _ & _ & _ & E)];
    destruct (addTimestamp_cases (metadata st) now t d (timestamps g))
      as [[E'|[msg' E']]|(R' & _ & _ & _ & E')];
    rewrite E, E' in *; cbn [fst]; try (repeat split; assumption);
    try (rewrite E in E'; discriminate);
    try (exfalso; unfold addTimestamp in E, E';
         destruct (metadata st); try discriminate;
         destruct (is_empty t || is_empty d); try discriminate;
         destruct (test timeRegex t); discriminate).
    repeat split.
    + apply Permutation_app_tail. exact Hp.
    + intros k. rewrite !filter_app, Hf. reflexivity.
    + apply Forall_app. split; [exact Hn|].
      constructor; [|constructor].
      destruct (validated_time_numeric t R) as (v & Ev & _).
      exists v. exact Ev.
  - cbn [metadata timestamps removeTimestamp fst]. repeat split.
    + exact Hmd.
    + apply filter_perm. exact Hp.
    + intros k. rewrite filter_comm, Hf, filter_comm. reflexivity.
    + apply Forall_forall. intros x Hx. apply filter_In in Hx.
      eapply Forall_forall in Hn; [exact Hn|apply Hx].
  - cbn [metadata timestamps].
    destruct (render_array (metadata st) (timestamps st)) as [E|E];
      rewrite E; repeat split; try assumption.
    + eapply perm_trans; [apply sortedView_perm|exact Hp].
    + intros k. rewrite sortedView_stable. apply Hf.
    + eapply Permutation_Forall;
        [apply Permutation_sym, sortedView_perm|exact Hn].
  - cbn [metadata timestamps].
    destruct (copy_array_cases (timestamps st)) as [E|E];
      rewrite E; repeat split; try assumption.
    + eapply perm_trans; [apply sortedView_perm|exact Hp].
    + intros k. rewrite sortedView_stable. apply Hf.
    + eapply Permutation_Forall;
        [apply Permutation_sym, sortedView_perm|exact Hn].
Qed.

Lemma run_tracks evs : forall st g,
  metadata st = metadata g ->
  Permutation (timestamps st) (timestamps g) ->
  (forall k, filter (has_seconds k) (timestamps st)
             = filter (has_seconds k) (timestamps g)) ->
  Forall numeric (timestamps st) ->
  Permutation (timestamps (fold_left step evs st))
              (timestamps (fold_left step_inserted evs g))
  /\ (forall k, filter (has_seconds k) (timestamps (fold_left step evs st))
                = filter (has_seconds k)
                    (timestamps (fold_left step_inserted evs g)))
  /\ Forall numeric (timestamps (fold_left step evs st)).
Proof.
  induction evs as [|ev evs IH]; intros st g Hmd Hp Hf Hn; simpl.
  - auto.
  - destruct (step_tracks st g ev Hmd Hp Hf Hn) as (A & B & C & D).
    apply IH; assumption.
Qed.

(** The sorted view of a reachable ledger: the inserted entries, ascending
    by seconds, the entries of equal seconds in insertion order. *)
Lemma sortedView_of_run evs :
  Permutation (sortedView (timestamps (run evs))) (inserted evs)
  /\ ascending (sortedView (timestamps (run evs)))
  /\ (forall k, filter (has_seconds k) (sortedView (timestamps (run evs)))
                = filter (has_seconds k) (inserted evs)).
Proof.
  unfold run, inserted.
  destruct (run_tracks evs initial initial eq_refl (Permutation_refl _)
              (fun _ => eq_refl) (Forall_nil _)) as (P & F & N).
  repeat split.
  - eapply perm_trans; [apply sortedView_perm|exact P].
  - apply sortedView_ascending, N.
  - intros k. rewrite sortedView_stable. apply F.
Qed.

(** ** Identities *)

Lemma str_eqb_eq a : forall b, str_eqb a b = true <-> a = b.
Proof.
  induction a as [|x a IH]; intros [|y b]; simpl;
    try (split; [discriminate|discriminate]); [tauto|].
  unfold char_eqb. rewrite andb_true_iff, Ascii.eqb_eq, IH. split.
  - intros [-> ->]. reflexivity.
  - intros E. inv E. auto.
Qed.

Lemma str_eqb_neq a b : str_eqb a b = false <-> a <> b.
Proof.
  rewrite <- str_eqb_eq. destruct (str_eqb a b); split; congruence.
Qed.

Lemma digits_inj a b : 0 <= a -> 0 <= b -> digits a = digits b -> a = b.
Proof.
  intros Ha Hb E.
  destruct (digits_spec a Ha) as (_ & Va & _).
  destruct (digits_spec b Hb) as (_ & Vb & _).
  rewrite <- Va, <- Vb, E. reflexivity.
Qed.

Lemma digits_not_minus n : 0 <= n -> forall r, digits n <> "-"%char :: r.
Proof.
  intros Hn r E. destruct (digits_spec n Hn) as (A & _ & _).
  rewrite E in A. inv A. discriminate.
Qed.

(** Distinct clock readings print as distinct identities. *)
Lemma toString_inj a b : toString a = toString b -> a = b.
Proof.
  unfold toString.
  destruct (a <? 0) eqn:Ea; destruct (b <? 0) eqn:Eb; intros E;
    try apply Z.ltb_lt in Ea; try apply Z.ltb_lt in Eb;
    try apply Z.ltb_ge in Ea; try apply Z.ltb_ge in Eb.
  - inv E. match goal with K : digits _ = digits _ |- _ =>
      apply digits_inj in K; lia end.
  - symmetry in E. apply digits_not_minus in E; [contradiction|lia].
  - apply digits_not_minus in E; [contradiction|lia].
  - apply digits_inj; assumption.
Qed.

Lemma step_ids st ev used :
  NoDup (used ++ event_clocks st ev) ->
  NoDup (map id (timestamps st)) ->
  incl (map id (timestamps st)) (map toString used) ->
  NoDup (map id (timestamps (step st ev)))
  /\ incl (map id (timestamps (step st ev)))
          (map toString (used ++ event_clocks st ev)).
Proof.
  intros Hc Hn Hi.
  assert (Hi' : incl (map id (timestamps st))
                     (map toString (used ++ event_clocks st ev))).
  { rewrite map_app. apply incl_appl. exact Hi. }
  destruct ev as [md|now t d|rid| |]; cbn [step timestamps].
  - split; [constructor|intros x []].
  - unfold event_clocks in *.
    destruct (addTimestamp_cases (metadata st) now t d (timestamps st))
      as [[E|[msg E]]|(R & _ & _ & _ & E)]; rewrite E in *; cbn [fst snd] in *.
    + auto.
    + auto.
    + rewrite map_app. cbn [map id].
      assert (Fresh : ~ In (toString now) (map id (timestamps st))).
      { intros Hin. apply Hi in Hin. apply in_map_iff in Hin.
        destruct Hin as (u & Eu & Hu). apply toString_inj in Eu. subst u.
        apply NoDup_remove_2 in Hc. apply Hc. rewrite app_nil_r. exact Hu. }
      split.
      * eapply Permutation_NoDup; [apply Permutation_cons_append|].
        constructor; assumption.
      * rewrite map_app. apply incl_app; [apply incl_appl; exact Hi|].
        apply incl_appr. apply incl_refl.
  - cbn [removeTimestamp fst]. split.
    + apply NoDup_map_filter. exact Hn.
    + eapply incl_tran; [apply incl_map_filter|exact Hi'].
  - destruct (render_array (metadata st) (timestamps st)) as [E|E]; rewrite E.
    + auto.
    + split.
      * eapply Permutation_NoDup;
          [apply Permutation_map, Permutation_sym, sortedView_perm|exact Hn].
      * intros x Hx. apply Hi'.
        eapply Permutation_in;
          [apply Permutation_map, sortedView_perm|exact Hx].
  - destruct (copy_array_cases (timestamps st)) as [E|E]; rewrite E.
    + auto.
    + split.
      * eapply Permutation_NoDup;
          [apply Permutation_map, Permutation_sym, sortedView_perm|exact Hn].
      * intros x Hx. apply Hi'.
        eapply Permutation_in;
          [apply Permutation_map, sortedView_perm|exact Hx].
Qed.

Lemma commit_clocks_cons st ev evs :
  commit_clocks st (ev :: evs)
  = event_clocks st ev ++ commit_clocks (step st ev) evs.
Proof. reflexivity. Qed.

Lemma run_ids evs : forall st used,
  NoDup (used ++ commit_clocks st evs) ->
  NoDup (map id (timestamps st)) ->
  incl (map id (timestamps st)) (map toString used) ->
  NoDup (map id (timestamps (fold_left step evs st)))
  /\ incl (map id (timestamps (fold_left step evs st)))
          (map toString (used ++ commit_clocks st evs)).
Proof.
  induction evs as [|ev evs IH]; intros st used Hc Hn Hi.
  - simpl. rewrite app_nil_r. auto.
  - rewrite commit_clocks_cons in *. rewrite app_assoc in *.
    destruct (step_ids st ev used) as [A B];
      [eapply NoDup_app_remove_r; exact Hc|exact Hn|exact Hi|].
    cbn [fold_left]. apply IH; assumption.
Qed.

Lemma commit_clocks_app pre : forall st post,
  commit_clocks st (pre ++ post)
  = commit_clocks st pre ++ commit_clocks (fold_left step pre st) post.
Proof.
  induction pre as [|ev pre IH]; intros st post; [reflexivity|].
  cbn [app commit_clocks fold_left]. rewrite IH, app_assoc. reflexivity.
Qed.

(** An add that commits at a reading no earlier commit had gets an id
    that no entry of the ledger has. *)
Lemma add_id_fresh pre now t d post :
  NoDup (commit_clocks initial (pre ++ EvAdd now t d :: post)) ->
  snd (addTimestamp (metadata (run pre)) now t d (timestamps (run pre)))
  = Some (ToastSuccess (js "Timestamp added")) ->
  ~ In (toString now) (map id (timestamps (run pre))).
Proof.
  intros Hn Hok Hin.
  rewrite commit_clocks_app in Hn. fold (run pre) in Hn.
  cbn [commit_clocks event_clocks] in Hn. rewrite Hok in Hn.
  cbn [app] in Hn.
  assert (Hpre : NoDup (commit_clocks initial pre))
    by (eapply NoDup_app_remove_r; exact Hn).
  destruct (run_ids pre initial [] Hpre) as [_ Hincl];
    [constructor|intros x []|].
  apply Hincl in Hin. cbn [app] in Hin. apply in_map_iff in Hin.
  destruct Hin as (u & Eu & Hu). apply toString_inj in Eu. subst u.
  apply NoDup_remove_2 in Hn. apply Hn. apply in_or_app. left. exact Hu.
Qed.

(** ** Entries are created once and never changed *)

(** Every entry after an event was there before, or is the record the
    event's add has just built from a validated time. *)
Lemma step_entries st ev x :
  In x (timestamps (step st ev)) ->
  In x (timestamps st)
  \/ exists now t d,
       ev = EvAdd now t d
       /\ test timeRegex t = true
       /\ x = {| id := toString now; time := t; description := d;
                 seconds := timeToSeconds t |}.
Proof.
  destruct ev as [md|now t d|rid| |]; cbn [step timestamps]; intros H.
  - destruct H.
  - destruct (addTimestamp_cases (metadata st) now t d (timestamps st))
      as [[E|[msg E]]|(R & _ & _ & _ & E)]; rewrite E in H; cbn [fst] in H;
      auto.
    apply in_app_or in H. destruct H as [H|[<-|[]]]; [auto|].
    right. exists now, t, d. auto.
  - cbn [removeTimestamp fst] in H. apply filter_In in H. left. apply H.
  - destruct (render_array (metadata st) (timestamps st)) as [E|E];
      rewrite E in H; [auto|].
    left. eapply Permutation_in; [apply sortedView_perm|exact H].
  - destruct (copy_array_cases (timestamps st)) as [E|E];
      rewrite E in H; [auto|].
    left. eapply Permutation_in; [apply sortedView_perm|exact H].
Qed.

Lemma run_consistent evs : forall st,
  Forall consistent (timestamps st) ->
  Forall consistent (timestamps (fold_left step evs st)).
Proof.
  induction evs as [|ev evs IH]; intros st H; [exact H|].
  cbn [fold_left]. apply IH. apply Forall_forall. intros x Hx.
  apply step_entries in Hx.
  destruct Hx as [Hx|(now & t & d & _ & _ & ->)].
  - eapply Forall_forall in H; eassumption.
  - reflexivity.
Qed.

(** ** [removeTimestamp] *)

Lemma removeTimestamp_entries rid l x :
  In x (fst (removeTimestamp rid l)) <-> In x l /\ id x <> rid.
Proof.
  cbn [removeTimestamp fst]. rewrite filter_In, negb_true_iff, str_eqb_neq.
  reflexivity.
Qed.

Lemma removeTimestamp_absent rid l :
  ~ In rid (map id l) -> fst (removeTimestamp rid l) = l.
Proof.
  intros H. cbn [removeTimestamp fst]. apply filter_all.
  apply Forall_forall. intros x Hx.
  apply negb_true_iff, str_eqb_neq. intros E. apply H.
  rewrite <- E. apply in_map, Hx.
Qed.

Lemma removeTimestamp_present rid l1 x l2 :
  NoDup (map id (l1 ++ x :: l2)) -> id x = rid ->
  fst (removeTimestamp rid (l1 ++ x :: l2)) = l1 ++ l2.
Proof.
  intros Hn Hx. cbn [removeTimestamp fst].
  rewrite filter_app. cbn [filter].
  assert (Ex : str_eqb (id x) rid = true) by (apply str_eqb_eq; exact Hx).
  rewrite Ex. cbn [negb].
  rewrite map_app in Hn. cbn [map] in Hn. apply NoDup_remove_2 in Hn.
  rewrite !filter_all; [reflexivity| |];
    apply Forall_forall; intros y Hy;
    apply negb_true_iff, str_eqb_neq; intros E; apply Hn;
    rewrite Hx, <- E; apply in_or_app; [right|left]; apply in_map, Hy.
Qed.

(** * The claims *)

(** C1. For every integer [s] in [0, 359999], formatting [s] with
    [formatSeconds] and reading the string back with [timeToSeconds]
    gives [s] again. *)
Theorem C1_format_parse_roundtrip (s : Z) :
  0 <= s <= 359999 -> timeToSeconds (formatSeconds s) = Num s.
Proof. intros H. apply timeToSeconds_formatSeconds. lia. Qed.

Lemma C1_format_parse_roundtrip_witness :
  0 <= 3725 <= 359999
  /\ formatSeconds 3725 = js "1:02:05"
  /\ timeToSeconds (formatSeconds 3725) = Num 3725.
Proof.
  split; [lia|]. split; [reflexivity|].
  apply (C1_format_parse_roundtrip 3725). lia.
Defined.



(** C3. [validateCommitFormat] (the [timeRegex] test of [addTimestamp])
    accepts exactly the strings made of an optional hours prefix (one or
    more digits and a colon), minutes as one or two digits with value in
    [0,59], a colon, and seconds as exactly two digits with value in
    [0,59].  It rejects "60:00" and "1:2" and accepts "12:34" and
    "1:12:34". *)
Theorem C3_commit_format_grammar :
  (forall t, validateCommitFormat t = true <-> commit_grammar t)
  /\ validateCommitFormat (js "60:00") = false
  /\ validateCommitFormat (js "1:2") = false
  /\ validateCommitFormat (js "12:34") = true
  /\ validateCommitFormat (js "1:12:34") = true.
Proof.
  split; [|repeat split; reflexivity].
  intros t. unfold validateCommitFormat. apply timeRegex_grammar.
Qed.

(** C4. For every ledger reached by loads, adds, removes, renders and
    copies, [sortedView] returns all the entries, ascending by [seconds],
    the entries of equal seconds in their insertion order.  Adding
    seconds 50, 10, 10, 30 in that order gives the view 10 (first), 10
    (second), 30, 50. *)
Theorem C4_sorted_view_stable :
  (forall evs,
     Permutation (sortedView (timestamps (run evs))) (inserted evs)
     /\ ascending (sortedView (timestamps (run evs)))
     /\ (forall k,
           filter (has_seconds k) (sortedView (timestamps (run evs)))
           = filter (has_seconds k) (inserted evs)))
  /\ (forall md n1 n2 n3 n4,
        let view :=
          sortedView
            (timestamps
               (run [EvLoad md;
                     EvAdd n1 (js "0:50") (js "a");
                     EvAdd n2 (js "0:10") (js "b");
                     EvAdd n3 (js "0:10") (js "c");
                     EvAdd n4 (js "0:30") (js "d")])) in
        map seconds view = [Num 10; Num 10; Num 30; Num 50]
        /\ map description view = [js "b"; js "c"; js "d"; js "a"]).
Proof.
  split; [apply sortedView_of_run|].
  intros md n1 n2 n3 n4. split; reflexivity.
Qed.

(** C5. Evaluating the code where the claim fails: with "0:50" added
    before "0:10", the stored array holds them in that order; after a
    render, and likewise after a copy, the stored array itself is in
    sorted order, because [sort] works on the array it is called on. *)
Theorem C5_sort_reorders_stored_array :
  forall md n1 n2,
    let before :=
      run [EvLoad md;
           EvAdd n1 (js "0:50") (js "a");
           EvAdd n2 (js "0:10") (js "b")] in
    map description (timestamps before) = [js "a"; js "b"]
    /\ map description (timestamps (step before EvRender)) = [js "b"; js "a"]
    /\ map description (timestamps (step before EvCopy)) = [js "b"; js "a"].
Proof. intros md n1 n2. repeat split; reflexivity. Qed.

(** C6, counterexample. Two adds at the same reading of the clock give
    two entries with the same id. *)
Lemma C6_same_clock_same_id :
  let l :=
    timestamps
      (run [EvLoad (loadedMetadata (js "dQw4w9WgXcQ"));
            EvAdd 1700000000000 (js "0:10") (js "a");
            EvAdd 1700000000000 (js "0:20") (js "b")]) in
  map id l = [js "1700000000000"; js "1700000000000"]
  /\ ~ NoDup (map id l).
Proof.
  split; [reflexivity|].
  intros H. inv H. match goal with K : ~ In _ _ |- _ => apply K end.
  left. reflexivity.
Qed.

(** C6, amended. When the adds that commit an entry read pairwise
    distinct values of the clock, then after any sequence of loads, adds,
    removes, renders and copies no two entries of the ledger share an id;
    every id in the ledger is the decimal string of one of these readings;
    the ids handed out along the way are pairwise distinct (none is used
    twice, also after a removal); and each add that commits gets an id
    that no entry of the ledger has at that moment. *)
Theorem C6_ids_distinct_for_distinct_clocks (evs : list Event) :
  NoDup (commit_clocks initial evs) ->
  NoDup (map id (timestamps (run evs)))
  /\ incl (map id (timestamps (run evs)))
          (map toString (commit_clocks initial evs))
  /\ NoDup (map toString (commit_clocks initial evs))
  /\ (forall pre now t d post,
        evs = pre ++ EvAdd now t d :: post ->
        snd (addTimestamp (metadata (run pre)) now t d
               (timestamps (run pre)))
        = Some (ToastSuccess (js "Timestamp added")) ->
        ~ In (toString now) (map id (timestamps (run pre)))).
Proof.
  intros H. split; [|split; [|split]].
  - apply (run_ids evs initial []); simpl; [exact H|constructor|].
    intros x [].
  - apply (run_ids evs initial []); simpl; [exact H|constructor|].
    intros x [].
  - apply NoDup_map_inj; [|exact H].
    intros a b. apply toString_inj.
  - intros pre now t d post -> Hok.
    eapply add_id_fresh; eassumption.
Qed.

Lemma C6_ids_distinct_for_distinct_clocks_witness :
  let evs :=
    [EvLoad (loadedMetadata (js "dQw4w9WgXcQ"));
     EvAdd 1700000000000 (js "0:10") (js "a");
     EvAdd 1700000000001 (js "0:20") (js "b");
     EvRender;
     EvRemove (js "1700000000000");
     EvAdd 1700000000002 (js "0:05") (js "c")] in
  NoDup (commit_clocks initial evs)
  /\ NoDup (map id (timestamps (run evs)))
  /\ incl (map id (timestamps (run evs)))
          (map toString (commit_clocks initial evs))
  /\ NoDup (map toString (commit_clocks initial evs)).
Proof.
  intros evs.
  assert (H : NoDup (commit_clocks initial evs)).
  { vm_compute. repeat constructor; simpl; intuition discriminate. }
  split; [exact H|].
  destruct (C6_ids_distinct_for_distinct_clocks evs H) as (A & B & C & _).
  auto.
Defined.

Lemma join_cons_concat sep ps : forall p,
  join sep (p :: ps) = p ++ List.concat (map (fun q => sep ++ q) ps).
Proof.
  induction ps as [|q ps IH]; intros p.
  - simpl. rewrite app_nil_r. reflexivity.
  - change (join sep (p :: q :: ps)) with (p ++ sep ++ join sep (q :: ps)).
    rewrite IH. cbn [map List.concat]. rewrite <- app_assoc. reflexivity.
Qed.

(** C7. The exported text is made of the entries of the sorted view, one
    line each, a line being the time, then a space, a hyphen and a space,
    then the description; the first line is followed by every further
    line with one line feed (character 10) in front of it, and by nothing
    else.  It is what [copyToClipboard] writes for a ledger with entries,
    line by line the rows the render shows.  For the empty ledger the
    text is the empty string, and nothing is written.  After adding
    ("1:05", "Intro") and then ("0:30", "Hook") to an empty ledger the
    text is "0:30 - Hook", a line feed, "1:05 - Intro". *)
Theorem C7_export_text :
  (forall l,
     exportText l
     = match map (fun ts =>
                    time ts ++ " "%char :: "-"%char :: " "%char
                            :: description ts)
                 (sortedView l) with
       | [] => []
       | first :: others =>
           first ++ List.concat (map (fun line => "010"%char :: line) others)
       end)
  /\ (forall x l,
        copy_clipboard (copyToClipboard (x :: l))
        = Some (exportText (x :: l)))
  /\ (forall md x l,
        copy_clipboard (copyToClipboard (x :: l))
        = Some (join newline
                  (map exportLine
                     (fst (renderTimestamps (Some md) (x :: l))))))
  /\ exportText [] = []
  /\ copy_clipboard (copyToClipboard []) = None
  /\ (forall md n1 n2,
        exportText
          (timestamps
             (run [EvLoad md;
                   EvAdd n1 (js "1:05") (js "Intro");
                   EvAdd n2 (js "0:30") (js "Hook")]))
        = js "0:30 - Hook" ++ "010"%char :: js "1:05 - Intro").
Proof.
  split; [|repeat split; intros; reflexivity].
  intros l. unfold exportText.
  change (map exportLine (sortedView l))
    with (map (fun ts =>
                 time ts ++ " "%char :: "-"%char :: " "%char
                         :: description ts) (sortedView l)).
  destruct (map (fun ts =>
                   time ts ++ " "%char :: "-"%char :: " "%char
                           :: description ts) (sortedView l))
    as [|first others]; [reflexivity|].
  rewrite join_cons_concat. reflexivity.
Qed.

(** C8. In every ledger reached by loads, adds, removes, renders and
    copies, the [seconds] of each entry is [timeToSeconds] of its
    [time]; and an event never changes an entry: each entry after the
    event is an entry from before it, or the record the event's add has
    just created from its time. *)
Theorem C8_seconds_consistent_with_time :
  (forall evs, Forall consistent (timestamps (run evs)))
  /\ (forall st ev x,
        In x (timestamps (step st ev)) ->
        In x (timestamps st)
        \/ exists now t d,
             ev = EvAdd now t d
             /\ x = {| id := toString now; time := t; description := d;
                       seconds := timeToSeconds t |}).
Proof.
  split.
  - intros evs. unfold run. apply run_consistent. constructor.
  - intros st ev x H. apply step_entries in H.
    destruct H as [H|(now & t & d & E & _ & Ex)]; [auto|].
    right. exists now, t, d. auto.
Qed.

(** C9, counterexample. Removing an id that no entry has shows the same
    "Timestamp removed" notice as a removal that drops an entry. *)
Lemma C9_absent_id_reported_removed :
  ~ In (js "42") (map id [])
  /\ removeTimestamp (js "42") []
     = ([], ToastSuccess (js "Timestamp removed")).
Proof. split; [intros []|reflexivity]. Qed.

(** C9, amended. [removeTimestamp] keeps exactly the entries whose id
    differs from the given one: with distinct ids it drops exactly the
    entry of that id and keeps the others in their order, and for an id
    that no entry has it leaves the collection unchanged.  It never
    fails, and in every case shows the notice "Timestamp removed": it
    does not tell whether anything was removed. *)
Theorem C9_remove_by_id :
  forall rid l,
    snd (removeTimestamp rid l) = ToastSuccess (js "Timestamp removed")
    /\ (forall x, In x (fst (removeTimestamp rid l))
                  <-> In x l /\ id x <> rid)
    /\ (forall l1 x l2,
          l = l1 ++ x :: l2 -> NoDup (map id l) -> id x = rid ->
          fst (removeTimestamp rid l) = l1 ++ l2)
    /\ (~ In rid (map id l) -> fst (removeTimestamp rid l) = l).
Proof.
  intros rid l. split; [reflexivity|]. split; [|split].
  - intros x. apply removeTimestamp_entries.
  - intros l1 x l2 -> Hn Hx. apply removeTimestamp_present; assumption.
  - apply removeTimestamp_absent.
Qed.




Lemma C9_remove_by_id_witness :
  let a := {| id := js "1"; time := js "0:50"; description := js "a";
              seconds := Num 50 |} in
  let b := {| id := js "2"; time := js "0:10"; description := js "b";
              seconds := Num 10 |} in
  NoDup (map id [a; b])
  /\ fst (removeTimestamp (js "1") [a; b]) = [b]
  /\ ~ In (js "3") (map id [a; b])
  /\ fst (removeTimestamp (js "3") [a; b]) = [a; b].
Proof.
  intros a b.
  assert (Hn : NoDup (map id [a; b])).
  { repeat constructor; simpl; intuition discriminate. }
  assert (Ha : ~ In (js "3") (map id [a; b])).
  { simpl; intuition discriminate. }
  split; [exact Hn|]. split; [|split; [exact Ha|]].
  - apply (proj1 (proj2 (proj2 (C9_remove_by_id (js "1") [a; b])))
             [] a [b] eq_refl Hn eq_refl).
  - apply (proj2 (proj2 (proj2 (C9_remove_by_id (js "3") [a; b]))) Ha).
Defined.

(** * Further properties of the code *)

(** ** The sanitizer of the time input *)

Lemma pad_truncate_length s :
  List.length (substring0 2 (padEnd 2 s)) = 2%nat.
Proof.
  unfold substring0, padEnd. destruct s as [|a [|b s]]; reflexivity.
Qed.

Lemma pad_truncate_two s :
  List.length s = 2%nat -> substring0 2 (padEnd 2 s) = s.
Proof.
  unfold substring0, padEnd.
  destruct s as [|a [|b [|c s]]]; try discriminate. reflexivity.
Qed.

Lemma or_else_nonempty a b : a <> [] -> or_else a b = a.
Proof. destruct a; [contradiction|reflexivity]. Qed.

Lemma digits_or_colon_app a b :
  Forall (fun c => is_digit c || is_colon c = true) a ->
  Forall (fun c => is_digit c || is_colon c = true) b ->
  Forall (fun c => is_digit c || is_colon c = true) (a ++ b).
Proof. intros Ha Hb. apply Forall_app. auto. Qed.

Lemma digits_are_clean s :
  all_digits s -> Forall (fun c => is_digit c || is_colon c = true) s.
Proof.
  intros H. eapply Forall_impl; [|exact H].
  intros c Hc. rewrite Hc. reflexivity.
Qed.

Lemma colon_is_clean :
  Forall (fun c => is_digit c || is_colon c = true) [colon].
Proof. repeat constructor. Qed.

(** What the sanitizer builds has the shape of a sanitized time. *)
Lemma sanitize_shape input : sanitized_shape (fst (sanitize input)).
Proof.
  unfold sanitize.
  pose proof (split_colon_digits _ (clean_input_chars input)) as Hp.
  set (parts := split_colon (clean_input input)) in *.
  assert (D0 : all_digits (js "0") /\ js "0" <> [])
    by (split; [repeat constructor|discriminate]).
  assert (D00 : all_digits (js "00") /\ js "00" <> [])
    by (split; [repeat constructor|discriminate]).
  destruct (List.length parts <=? 2)%nat; cbn [fst].
  - left.
    destruct (or_else_digits _ _ (nth_part_digits parts 0 Hp)
                (proj1 D0) (proj2 D0)) as [Am Nm].
    eexists _, _. split; [reflexivity|]. repeat split; try assumption.
    + destruct (1 <? List.length parts)%nat; [|apply D00].
      apply pad_truncate_digits, nth_part_digits, Hp.
    + destruct (1 <? List.length parts)%nat; [|reflexivity].
      apply pad_truncate_length.
  - right.
    destruct (or_else_digits _ _ (nth_part_digits parts 0 Hp)
                (proj1 D0) (proj2 D0)) as [Ah Nh].
    destruct (or_else_digits _ _ (nth_part_digits parts 1 Hp)
                (proj1 D00) (proj2 D00)) as [Am Nm].
    destruct (pad_truncate_digits _ (nth_part_digits parts 2 Hp)) as [At Nt].
    eexists _, _, _. split; [reflexivity|]. repeat split; try assumption.
    + rewrite or_else_nonempty by exact Nt. exact At.
    + rewrite or_else_nonempty by exact Nt. apply pad_truncate_length.
Qed.

(** The sanitizer leaves a sanitized time as it is. *)
Lemma sanitize_fixed t : sanitized_shape t -> fst (sanitize t) = t.
Proof.
  intros [(m & s & -> & Hm & Nm & Hs & Ls)
         |(h & m & s & -> & Hh & Nh & Hm & Nm & Hs & Ls)].
  - unfold sanitize.
    assert (Hc : clean_input (m ++ [colon] ++ s) = m ++ [colon] ++ s).
    { apply filter_all. repeat apply digits_or_colon_app;
        auto using digits_are_clean, colon_is_clean. }
    assert (Hp : split_colon (m ++ [colon] ++ s) = [m; s]).
    { change (m ++ [colon] ++ s) with (m ++ colon :: s).
      rewrite split_colon_app, split_colon_no_colon
        by (apply all_digits_no_colon; assumption). reflexivity. }
    rewrite Hc, Hp.
    cbn [List.length Nat.leb Nat.ltb nth fst].
    rewrite or_else_nonempty by exact Nm.
    rewrite pad_truncate_two by exact Ls. reflexivity.
  - unfold sanitize.
    assert (Hc : clean_input (h ++ [colon] ++ m ++ [colon] ++ s)
                 = h ++ [colon] ++ m ++ [colon] ++ s).
    { apply filter_all. repeat apply digits_or_colon_app;
        auto using digits_are_clean, colon_is_clean. }
    assert (Hp : split_colon (h ++ [colon] ++ m ++ [colon] ++ s)
                 = [h; m; s]).
    { change (h ++ [colon] ++ m ++ [colon] ++ s)
        with (h ++ colon :: m ++ colon :: s).
      rewrite !split_colon_app, split_colon_no_colon
        by (apply all_digits_no_colon; assumption). reflexivity. }
    rewrite Hc, Hp.
    cbn [List.length Nat.leb Nat.ltb nth fst].
    rewrite !or_else_nonempty; try assumption.
    + rewrite pad_truncate_two by exact Ls. reflexivity.
    + rewrite pad_truncate_two by exact Ls.
      destruct s; [discriminate Ls|discriminate].
Qed.

Lemma snd_sanitize_fixed t :
  sanitized_shape t -> snd (sanitize t) = timeToSeconds t.
Proof.
  intros H. destruct (sanitize_total t) as (v & Ev & _ & Et).
  rewrite sanitize_fixed in Et by exact H. congruence.
Qed.

(** A time of the commit grammar has the shape of a sanitized time. *)
Lemma grammar_shape t : commit_grammar t -> sanitized_shape t.
Proof.
  intros (h & m & s & -> & Hh & Hm & Lm & _ & Hs & Ls & _).
  assert (Nm : m <> []) by (destruct m; [simpl in Lm; lia|discriminate]).
  destruct Hh as [->|(ds & Nd & Hd & ->)].
  - left. exists m, s. repeat split; assumption.
  - right. exists ds, m, s. rewrite <- app_assoc. repeat split; assumption.
Qed.

Lemma formatTimeString_shape input d :
  sanitized_shape (formatTimeString input d).
Proof.
  rewrite formatTimeString_cases.
  destruct (num_gt (snd (sanitize input)) (Num d) && (0 <? d)) eqn:E.
  - apply andb_true_iff in E. destruct E as [_ Hd]. apply Z.ltb_lt in Hd.
    apply grammar_shape, formatSeconds_grammar. lia.
  - apply sanitize_shape.
Qed.

Lemma formatTimeString_of_shape t d :
  sanitized_shape t ->
  formatTimeString t d
  = if num_gt (timeToSeconds t) (Num d) && (0 <? d)
    then formatSeconds d else t.
Proof.
  intros H. rewrite formatTimeString_cases.
  rewrite snd_sanitize_fixed, sanitize_fixed by exact H. reflexivity.
Qed.

Lemma formatTimeString_twice input d :
  formatTimeString (formatTimeString input d) d = formatTimeString input d.
Proof.
  rewrite (formatTimeString_cases input d).
  destruct (sanitize_total input) as (v & Ev & Hv & Et).
  destruct (num_gt (snd (sanitize input)) (Num d) && (0 <? d)) eqn:E.
  - apply andb_true_iff in E. destruct E as [_ Hd]. apply Z.ltb_lt in Hd.
    rewrite formatTimeString_of_shape
      by (apply grammar_shape, formatSeconds_grammar; lia).
    rewrite timeToSeconds_formatSeconds by lia.
    simpl num_gt. rewrite Z.ltb_irrefl. reflexivity.
  - rewrite formatTimeString_of_shape by apply sanitize_shape.
    rewrite Et, <- Ev, E. reflexivity.
Qed.

Lemma shape_reads_number t :
  sanitized_shape t -> exists v, timeToSeconds t = Num v /\ 0 <= v.
Proof.
  intros [(m & s & -> & Hm & Nm & Hs & Ls)
         |(h & m & s & -> & Hh & Nh & Hm & Nm & Hs & Ls)];
    assert (Ns : s <> []) by (destruct s; [discriminate Ls|discriminate]).
  - destruct (parseInt_field _ Hm Nm) as (vm & Pm & Bm & Cm).
    destruct (parseInt_field _ Hs Ns) as (vs & Ps & Bs & Cs).
    rewrite timeToSeconds_two by assumption. rewrite Pm, Ps.
    exists (vm * 60 + vs). split; [reflexivity|lia].
  - destruct (parseInt_field _ Hh Nh) as (vh & Ph & Bh & Ch).
    destruct (parseInt_field _ Hm Nm) as (vm & Pm & Bm & Cm).
    destruct (parseInt_field _ Hs Ns) as (vs & Ps & Bs & Cs).
    rewrite timeToSeconds_three by assumption. rewrite Ph, Pm, Ps.
    exists (vh * 3600 + vm * 60 + vs). split; [reflexivity|lia].
Qed.

(** ** Capturing and adjusting the time *)

Lemma capture_reads cs cur :
  0 <= cs -> timeToSeconds (captureCurrentTime (Some cs) cur) = Num cs.
Proof.
  intros H. cbn [captureCurrentTime]. rewrite Z.rem_mod_nonneg by lia.
  assert (Hm : 0 <= cs / 60) by (apply Z.div_pos; lia).
  assert (Hs : 0 <= cs mod 60) by (apply Z.mod_pos_bound; lia).
  destruct (field_parse _ Hm) as [Pm Nm].
  destruct (padded_field_parse _ Hs) as [Ps Ns].
  rewrite timeToSeconds_two by assumption. rewrite Pm, Ps. simpl. f_equal.
  Z.to_euclidean_division_equations. lia.
Qed.

Lemma capture_below_hour cs cur :
  0 <= cs < 3600 -> captureCurrentTime (Some cs) cur = formatSeconds cs.
Proof.
  intros H. unfold captureCurrentTime, formatSeconds.
  rewrite (Z.rem_mod_nonneg cs 3600) by lia.
  rewrite (Z.rem_mod_nonneg cs 60) by lia.
  rewrite (Z.div_small cs 3600), (Z.mod_small cs 3600) by lia.
  reflexivity.
Qed.

(** The fields of a time of the commit grammar, as the split gives them. *)
Lemma grammar_split t :
  commit_grammar t ->
  (exists m s, split_colon t = [m; s]
               /\ all_digits m /\ 0 <= dec_value m <= 59)
  \/ (exists h m s, split_colon t = [h; m; s]).
Proof.
  intros (h & m & s & -> & Hh & Hm & Lm & Vm & Hs & Ls & _).
  pose proof (all_digits_no_colon _ Hm) as Cm.
  pose proof (all_digits_no_colon _ Hs) as Cs.
  destruct Hh as [->|(ds & Nd & Hd & ->)].
  - left. exists m, s. split; [|auto].
    change ([] ++ m ++ [colon] ++ s) with (m ++ colon :: s).
    rewrite split_colon_app, split_colon_no_colon by assumption. reflexivity.
  - right. exists ds, m, s. rewrite <- app_assoc.
    change (ds ++ [colon] ++ m ++ [colon] ++ s)
      with (ds ++ colon :: m ++ colon :: s).
    rewrite !split_colon_app, split_colon_no_colon
      by (try apply all_digits_no_colon; assumption).
    reflexivity.
Qed.

Lemma capture_commit cs cur :
  0 <= cs ->
  (validateCommitFormat (captureCurrentTime (Some cs) cur) = true
   <-> cs < 3600).
Proof.
  intros H. unfold validateCommitFormat. rewrite timeRegex_grammar. split.
  - intros G. apply grammar_split in G.
    assert (Hm : 0 <= cs / 60) by (apply Z.div_pos; lia).
    assert (Hs : 0 <= cs mod 60) by (apply Z.mod_pos_bound; lia).
    destruct (toString_spec _ Hm) as (Am & Vm & _).
    destruct (padded_field_parse _ Hs) as [_ Ns].
    assert (Sp : split_colon (captureCurrentTime (Some cs) cur)
                 = [toString (cs / 60); padStart 2 (toString (cs mod 60))]).
    { cbn [captureCurrentTime]. rewrite Z.rem_mod_nonneg by lia.
      change (?a ++ [colon] ++ ?b) with (a ++ colon :: b).
      rewrite split_colon_app, split_colon_no_colon;
        try assumption; [reflexivity|].
      apply all_digits_no_colon, Am. }
    rewrite Sp in G.
    destruct G as [(m & s & E & _ & V)|(h & m & s & E)]; [|discriminate].
    inv E. rewrite Vm in V. Z.to_euclidean_division_equations. lia.
  - intros Hc. rewrite capture_below_hour by lia.
    apply formatSeconds_grammar. lia.
Qed.

Lemma parseTimeInput_min input d :
  parseTimeInput input d = num_min (timeToSeconds input) (Num d).
Proof. reflexivity. Qed.

(** ** Sorting: the view is determined by the entries of each second *)

Lemma ascending_fixed l : ascending l -> sortedView l = l.
Proof.
  unfold ascending, sortedView.
  induction 1 as [|x l Hl IH Hx]; [reflexivity|].
  cbn [array_sort]. rewrite IH. destruct l as [|y l]; [reflexivity|].
  inv Hx. cbn [sort_insert].
  match goal with K : le_seconds x y |- _ =>
    unfold le_seconds, num_le in K end.
  unfold SortCompare, bySeconds, num_sub.
  destruct (seconds x) as [|vx]; [reflexivity|].
  destruct (seconds y) as [|vy]; [reflexivity|].
  match goal with K : (_ <=? _) = true |- _ => apply Z.leb_le in K end.
  assert (E : (0 <? vx - vy) = false) by (apply Z.ltb_ge; lia).
  rewrite E. reflexivity.
Qed.

Lemma has_seconds_iff k x : has_seconds k x = true <-> seconds x = Num k.
Proof.
  unfold has_seconds. destruct (seconds x) as [|v].
  - split; discriminate.
  - rewrite Z.eqb_eq. split; congruence.
Qed.

Lemma head_seconds_le x l y vx vy :
  ascending (x :: l) -> In y (x :: l) ->
  seconds x = Num vx -> seconds y = Num vy -> vx <= vy.
Proof.
  intros Hs Hin Ex Ey. inversion Hs as [|? ? Hl Hx]; subst.
  destruct Hin as [->|Hin].
  - rewrite Ex in Ey. inv Ey. lia.
  - eapply Forall_forall in Hx; [|exact Hin].
    unfold le_seconds in Hx. rewrite Ex, Ey in Hx.
    simpl in Hx. apply Z.leb_le in Hx. exact Hx.
Qed.

Lemma ascending_unique l1 : forall l2,
  ascending l1 -> ascending l2 ->
  Forall numeric l1 -> Forall numeric l2 ->
  (forall k, filter (has_seconds k) l1 = filter (has_seconds k) l2) ->
  l1 = l2.
Proof.
  induction l1 as [|x l1 IH]; intros l2 A1 A2 N1 N2 F.
  - destruct l2 as [|y l2]; [reflexivity|].
    inv N2. match goal with K : numeric y |- _ => destruct K as [ky Ey] end.
    specialize (F ky). cbn [filter] in F.
    apply has_seconds_iff in Ey. rewrite Ey in F. discriminate.
  - pose proof N1 as N1'. inv N1'.
    match goal with K : numeric x |- _ => destruct K as [kx Ex] end.
    assert (Hx : has_seconds kx x = true) by (apply has_seconds_iff, Ex).
    destruct l2 as [|y l2].
    { specialize (F kx). cbn [filter] in F. rewrite Hx in F. discriminate. }
    pose proof N2 as N2'. inv N2'.
    match goal with K : numeric y |- _ => destruct K as [ky Ey] end.
    assert (Hy : has_seconds ky y = true) by (apply has_seconds_iff, Ey).
    assert (In1 : In y (x :: l1)).
    { assert (I : In y (filter (has_seconds ky) (y :: l2)))
        by (cbn [filter]; rewrite Hy; left; reflexivity).
      rewrite <- F in I. apply filter_In in I. apply I. }
    assert (In2 : In x (y :: l2)).
    { assert (I : In x (filter (has_seconds kx) (x :: l1)))
        by (cbn [filter]; rewrite Hx; left; reflexivity).
      rewrite F in I. apply filter_In in I. apply I. }
    pose proof (head_seconds_le _ _ _ _ _ A1 In1 Ex Ey).
    pose proof (head_seconds_le _ _ _ _ _ A2 In2 Ey Ex).
    assert (kx = ky) by lia. subst ky.
    pose proof (F kx) as Fk. cbn [filter] in Fk. rewrite Hx, Hy in Fk.
    inv Fk. f_equal. inv A1. inv A2. apply IH; try assumption.
    intros k. specialize (F k). cbn [filter] in F.
    match type of F with context [has_seconds k ?z] =>
      destruct (has_seconds k z) end.
    + injection F as F. exact F.
    + exact F.
Qed.

(** The sorted view of a reachable ledger is the sorted view of its
    entries in insertion order. *)
Lemma sortedView_run_inserted evs :
  sortedView (timestamps (run evs)) = sortedView (inserted evs).
Proof.
  unfold run, inserted.
  destruct (run_tracks evs initial initial eq_refl (Permutation_refl _)
              (fun _ => eq_refl) (Forall_nil _)) as (P & F & N).
  assert (N' : Forall numeric
                 (timestamps (fold_left step_inserted evs initial)))
    by (eapply Permutation_Forall; [exact P|exact N]).
  apply ascending_unique.
  - apply sortedView_ascending, N.
  - apply sortedView_ascending, N'.
  - eapply Permutation_Forall;
      [apply Permutation_sym, sortedView_perm|exact N].
  - eapply Permutation_Forall;
      [apply Permutation_sym, sortedView_perm|exact N'].
  - intros k. rewrite !sortedView_stable. apply F.
Qed.

Lemma run_numeric evs : Forall numeric (timestamps (run evs)).
Proof.
  unfold run.
  apply (run_tracks evs initial initial eq_refl (Permutation_refl _)
           (fun _ => eq_refl) (Forall_nil _)).
Qed.

(** ** More on the ledger *)

Lemma is_empty_false s : is_empty s = false <-> s <> [].
Proof. destruct s; simpl; split; congruence. Qed.

(** When [addTimestamp] commits an entry. *)
Lemma addTimestamp_commits md now t d l :
  snd (addTimestamp md now t d l) = Some (ToastSuccess (js "Timestamp added"))
  <-> md <> None /\ d <> [] /\ validateCommitFormat t = true.
Proof.
  unfold validateCommitFormat. split.
  - destruct (addTimestamp_cases md now t d l)
      as [[E|[msg E]]|(R & Hm & Ht & Hd & E)]; rewrite E; cbn [snd];
      try discriminate. auto.
  - intros (Hm & Hd & R). unfold addTimestamp.
    destruct md as [m|]; [|contradiction].
    assert (Ht : is_empty t = false).
    { destruct t; [discriminate R|reflexivity]. }
    apply is_empty_false in Hd. rewrite Ht, Hd, R. reflexivity.
Qed.

Lemma step_entries_valid st ev x :
  In x (timestamps (step st ev)) -> In x (timestamps st) \/ valid_entry x.
Proof.
  destruct ev as [md|now t d|rid| |]; cbn [step timestamps]; intros H.
  - destruct H.
  - destruct (addTimestamp_cases (metadata st) now t d (timestamps st))
      as [[E|[msg E]]|(R & _ & _ & Hd & E)]; rewrite E in H; cbn [fst] in H;
      auto.
    apply in_app_or in H. destruct H as [H|[<-|[]]]; [auto|].
    right. repeat split; [exact R|exact Hd|].
    apply validated_time_numeric, R.
  - cbn [removeTimestamp fst] in H. apply filter_In in H. left. apply H.
  - destruct (render_array (metadata st) (timestamps st)) as [E|E];
      rewrite E in H; [auto|].
    left. eapply Permutation_in; [apply sortedView_perm|exact H].
  - destruct (copy_array_cases (timestamps st)) as [E|E];
      rewrite E in H; [auto|].
    left. eapply Permutation_in; [apply sortedView_perm|exact H].
Qed.

Lemma run_valid evs : forall st,
  Forall valid_entry (timestamps st) ->
  Forall valid_entry (timestamps (fold_left step evs st)).
Proof.
  induction evs as [|ev evs IH]; intros st H; [exact H|].
  cbn [fold_left]. apply IH. apply Forall_forall. intros x Hx.
  apply step_entries_valid in Hx. destruct Hx as [Hx|Hx]; [|exact Hx].
  eapply Forall_forall in H; eassumption.
Qed.

(** Without a loaded video the list is empty. *)
Lemma run_no_video evs : forall st,
  (metadata st = None -> timestamps st = []) ->
  metadata (fold_left step evs st) = None ->
  timestamps (fold_left step evs st) = [].
Proof.
  induction evs as [|ev evs IH]; intros st H; [exact H|].
  cbn [fold_left]. apply IH.
  destruct ev as [md|now t d|rid| |]; cbn [step metadata timestamps];
    intros Hm; try discriminate; specialize (H Hm);
    rewrite ?Hm, H; reflexivity.
Qed.

Lemma sortedView_nil : sortedView [] = [].
Proof. reflexivity. Qed.

(** On a reachable ledger a render, and a copy, leave the sorted view in
    the stored array. *)
Lemma render_stores_view evs :
  timestamps (step (run evs) EvRender) = sortedView (timestamps (run evs)).
Proof.
  cbn [step timestamps]. unfold renderTimestamps.
  destruct (metadata (run evs)) eqn:M.
  - destruct (timestamps (run evs)); reflexivity.
  - unfold run in *. rewrite (run_no_video evs initial (fun _ => eq_refl) M).
    reflexivity.
Qed.

Lemma copy_stores_view l :
  copy_array (copyToClipboard l) = sortedView l.
Proof. destruct l; reflexivity. Qed.

Lemma sortedView_twice evs :
  sortedView (sortedView (timestamps (run evs)))
  = sortedView (timestamps (run evs)).
Proof. apply ascending_fixed, sortedView_ascending, run_numeric. Qed.

(** The exported text of a ledger with entries is not empty. *)
Lemma join_nonempty sep p ps : p <> [] -> join sep (p :: ps) <> [].
Proof.
  intros H. destruct ps; simpl; [exact H|].
  intros E. apply app_eq_nil in E. tauto.
Qed.

Lemma exportLine_nonempty x : exportLine x <> [].
Proof.
  unfold exportLine. intros E. apply app_eq_nil in E. destruct E as [_ E].
  discriminate E.
Qed.

Lemma exportText_nonempty x l : exportText (x :: l) <> [].
Proof.
  unfold exportText.
  destruct (sortedView (x :: l)) as [|y r] eqn:E.
  - pose proof (Permutation_length (sortedView_perm (x :: l))) as L.
    rewrite E in L. discriminate L.
  - cbn [map]. apply join_nonempty, exportLine_nonempty.
Qed.

(** ** Removing *)

Lemma remove_after_add md now t d l :
  ~ In (toString now) (map id l) ->
  fst (removeTimestamp (toString now) (fst (addTimestamp md now t d l))) = l.
Proof.
  intros H.
  destruct (addTimestamp_cases md now t d l)
    as [[E|[msg E]]|(_ & _ & _ & _ & E)]; rewrite E; cbn [fst];
    try (apply removeTimestamp_absent; exact H).
  cbn [removeTimestamp fst]. rewrite filter_app. cbn [filter id].
  assert (Ex : str_eqb (toString now) (toString now) = true)
    by (apply str_eqb_eq; reflexivity).
  rewrite Ex. cbn [negb]. rewrite app_nil_r.
  apply (removeTimestamp_absent (toString now) l H).
Qed.

Lemma filter_twice {A : Type} (p : A -> bool) l :
  filter p (filter p l) = filter p l.
Proof.
  induction l as [|x l IH]; simpl; [reflexivity|].
  destruct (p x) eqn:E; simpl; rewrite ?E, IH; reflexivity.
Qed.

(** ** The backtracking matcher *)

Lemma star_iter_cls p k s : forall fuel caps,
  (List.length s <= fuel)%nat ->
  star_iter (fun s' caps' k' => pmatch (PCls p) s' caps' k') k fuel s caps
  = greedy_cls p k s caps.
Proof.
  induction s as [|c s IH]; intros fuel caps Hf.
  - destruct fuel; reflexivity.
  - destruct fuel as [|f]; [simpl in Hf; lia|].
    cbn [star_iter pmatch greedy_cls]. destruct (p c); [|reflexivity].
    assert (L : (List.length s <? List.length (c :: s))%nat = true)
      by (apply Nat.ltb_lt; simpl; lia).
    rewrite L, IH by (simpl in Hf; lia). reflexivity.
Qed.

Lemma pmatch_star_cls p s caps k :
  pmatch (PStar (PCls p)) s caps k = greedy_cls p k s caps.
Proof. cbn [pmatch]. apply star_iter_cls. lia. Qed.

(** A greedy run hands over to the continuation after some prefix in the
    class. *)
Lemma greedy_cls_some p k s : forall caps res,
  greedy_cls p k s caps = Some res ->
  exists n, (n <= List.length s)%nat
            /\ Forall (fun c => p c = true) (firstn n s)
            /\ k (skipn n s) caps = Some res.
Proof.
  induction s as [|c s IH]; intros caps res H.
  - exists 0%nat. simpl. auto.
  - cbn [greedy_cls] in H. destruct (p c) eqn:E.
    + destruct (greedy_cls p k s caps) as [r|] eqn:G.
      * inv H. destruct (IH _ _ G) as (n & Hn & Hp & Hk).
        exists (S n). simpl. repeat split; [lia|auto|exact Hk].
      * exists 0%nat. simpl. repeat split; [lia|constructor|exact H].
    + exists 0%nat. simpl. repeat split; [lia|constructor|exact H].
Qed.

(** When the continuation fails after every later position, the run gives
    everything back. *)
Lemma greedy_cls_back p k s : forall caps,
  (forall pre c t, s = pre ++ c :: t -> k t caps = None) ->
  greedy_cls p k s caps = k s caps.
Proof.
  induction s as [|c s IH]; intros caps H; [reflexivity|].
  cbn [greedy_cls]. destruct (p c); [|reflexivity].
  rewrite IH.
  - rewrite (H [] c s eq_refl). reflexivity.
  - intros pre x t E. apply (H (c :: pre) x t). rewrite E. reflexivity.
Qed.

Lemma greedy_cls_prefix p k pre : forall t caps res,
  Forall (fun c => p c = true) pre ->
  greedy_cls p k t caps = Some res ->
  greedy_cls p k (pre ++ t) caps = Some res.
Proof.
  induction pre as [|c pre IH]; intros t caps res Hp H; [exact H|].
  inv Hp. cbn [app greedy_cls].
  match goal with K : p c = true |- _ => rewrite K end.
  rewrite (IH t caps res) by assumption. reflexivity.
Qed.

(** In front of a continuation that never fails the run is the longest
    one. *)
Lemma greedy_cls_longest p k s : forall caps,
  (forall t c, k t c <> None) ->
  greedy_cls p k s caps = k (drop_run p s) caps.
Proof.
  induction s as [|c s IH]; intros caps Hk; [reflexivity|].
  cbn [greedy_cls drop_run]. destruct (p c); [|reflexivity].
  rewrite IH by exact Hk.
  destruct (k (drop_run p s) caps) eqn:E; [reflexivity|].
  exfalso. eapply Hk, E.
Qed.

Lemma drop_run_length p s :
  (List.length (drop_run p s) <= List.length s)%nat.
Proof.
  induction s as [|c s IH]; simpl; [lia|].
  destruct (p c); simpl; lia.
Qed.

Lemma consumed_run p s : consumed s (drop_run p s) = take_run p s.
Proof.
  unfold consumed. induction s as [|c s IH]; [reflexivity|].
  cbn [drop_run take_run]. destruct (p c).
  - pose proof (drop_run_length p s).
    replace (List.length (c :: s) - List.length (drop_run p s))%nat
      with (S (List.length s - List.length (drop_run p s)))
      by (cbn [List.length]; lia).
    cbn [firstn]. rewrite IH. reflexivity.
  - rewrite Nat.sub_diag. reflexivity.
Qed.

Lemma take_run_all p s : Forall (fun c => p c = true) (take_run p s).
Proof.
  induction s as [|c s IH]; simpl; [constructor|].
  destruct (p c) eqn:E; constructor; assumption.
Qed.

Lemma take_drop_run p s : take_run p s ++ drop_run p s = s.
Proof.
  induction s as [|c s IH]; simpl; [reflexivity|].
  destruct (p c); simpl; [rewrite IH|]; reflexivity.
Qed.

Lemma take_run_app p w rest :
  Forall (fun c => p c = true) w ->
  (rest = [] \/ exists c r, rest = c :: r /\ p c = false) ->
  take_run p (w ++ rest) = w.
Proof.
  intros Hw Hr. induction Hw as [|c w Hc Hw IH]; simpl.
  - destruct Hr as [->|(c & r & -> & Hc)]; [reflexivity|].
    simpl. rewrite Hc. reflexivity.
  - rewrite Hc, IH. reflexivity.
Qed.

(** *** Literal texts *)

Lemma pmatch_lit_app w : forall t caps k,
  pmatch (lit w) (w ++ t) caps k = k t caps.
Proof.
  induction w as [|c w IH]; intros t caps k; [reflexivity|].
  cbn [lit fold_right app pmatch]. unfold char_eqb at 1.
  rewrite Ascii.eqb_refl. apply IH.
Qed.

Lemma pmatch_lit_inv w : forall s caps k res,
  pmatch (lit w) s caps k = Some res ->
  exists t, s = w ++ t /\ k t caps = Some res.
Proof.
  induction w as [|c w IH]; intros s caps k res H.
  - exists s. auto.
  - cbn [lit fold_right pmatch] in H. destruct s as [|x s]; [discriminate|].
    unfold char_eqb at 1 in H. destruct (Ascii.eqb x c) eqn:E; [|discriminate].
    apply Ascii.eqb_eq in E. subst x.
    destruct (IH _ _ _ _ H) as (t & -> & Hk). exists t. auto.
Qed.

Lemma pmatch_cls_inv p s caps k res :
  pmatch (PCls p) s caps k = Some res ->
  exists c t, s = c :: t /\ p c = true /\ k t caps = Some res.
Proof.
  cbn [pmatch]. destruct s as [|c t]; [discriminate|].
  destruct (p c) eqn:E; [|discriminate]. eauto.
Qed.

Lemma pmatch_alt_inv a b s caps k res :
  pmatch (PAlt a b) s caps k = Some res ->
  pmatch a s caps k = Some res \/ pmatch b s caps k = Some res.
Proof.
  cbn [pmatch]. destruct (pmatch a s caps k); auto.
Qed.

(** *** The parts of [regExp] *)

Lemma dots_to_end t caps :
  pmatch (PStar (PCls is_dot)) t caps (fun _ c => Some c) = Some caps.
Proof.
  rewrite pmatch_star_cls, greedy_cls_longest; [reflexivity|].
  intros; discriminate.
Qed.

Lemma pmatch_seq a b s caps k :
  pmatch (PSeq a b) s caps k
  = pmatch a s caps (fun s' caps' => pmatch b s' caps' k).
Proof. reflexivity. Qed.

Lemma pmatch_group i a s caps k :
  pmatch (PGroup i a) s caps k
  = pmatch a s caps
      (fun s' caps' => k s' (set_capture i (consumed s s') caps')).
Proof. reflexivity. Qed.

(** Group 7 and the final run: the longest run of [[^#&?]] is captured. *)
Lemma id_group_eval s caps :
  pmatch (PSeq (PGroup 7 (PStar (PCls is_id_char))) (PStar (PCls is_dot)))
         s caps (fun _ c => Some c)
  = Some (set_capture 7 (take_run is_id_char s) caps).
Proof.
  rewrite pmatch_seq, pmatch_group, pmatch_star_cls, greedy_cls_longest.
  - rewrite dots_to_end, consumed_run. reflexivity.
  - intros t c. rewrite dots_to_end. discriminate.
Qed.

(** An optional character in front of a part that never fails is taken
    when it is there. *)
Lemma opt_eval c X s caps k :
  (forall t c', pmatch X t c' k <> None) ->
  pmatch (PSeq (POpt (lit [c])) X) s caps k = pmatch X (strip c s) caps k.
Proof.
  intros HX. unfold POpt. destruct s as [|x s];
    cbn [pmatch lit fold_right strip].
  - reflexivity.
  - destruct (char_eqb x c); [|reflexivity].
    destruct (pmatch X s caps k) eqn:E; [reflexivity|].
    exfalso. eapply HX, E.
Qed.

Lemma idPart_eval s caps :
  pmatch idPart s caps (fun _ c => Some c)
  = Some (set_capture 7 (idText s) caps).
Proof.
  unfold idPart, idText.
  change (js "?") with [question]. change (js "v") with ["v"%char].
  change (js "=") with ["="%char].
  assert (H3 : forall t c,
             pmatch (PSeq (PGroup 7 (PStar (PCls is_id_char)))
                          (PStar (PCls is_dot))) t c (fun _ c => Some c)
             <> None)
    by (intros; rewrite id_group_eval; discriminate).
  assert (H2 : forall t c,
             pmatch (PSeq (POpt (lit ["="%char]))
                       (PSeq (PGroup 7 (PStar (PCls is_id_char)))
                             (PStar (PCls is_dot)))) t c (fun _ c => Some c)
             <> None)
    by (intros; rewrite opt_eval by exact H3; apply H3).
  assert (H1 : forall t c,
             pmatch (PSeq (POpt (lit ["v"%char]))
                       (PSeq (POpt (lit ["="%char]))
                          (PSeq (PGroup 7 (PStar (PCls is_id_char)))
                                (PStar (PCls is_dot))))) t c
                    (fun _ c => Some c)
             <> None)
    by (intros; rewrite opt_eval by exact H2; apply H2).
  rewrite opt_eval by exact H1. rewrite opt_eval by exact H2.
  rewrite opt_eval by exact H3. apply id_group_eval.
Qed.

(** Group 1 takes one of the marker texts. *)
Lemma markerGroup_inv t caps k res :
  pmatch markerGroup t caps k = Some res ->
  exists m t' caps', t = m ++ t' /\ marker_text m /\ k t' caps' = Some res.
Proof.
  unfold markerGroup, marker_text. intros H. cbn [pmatch] in H.
  repeat match type of H with
         | match ?x with Some _ => _ | None => _ end = Some _ =>
             let E := fresh "E" in destruct x eqn:E
         end.
  - inv H. apply pmatch_lit_inv in E. destruct E as (t1 & -> & E).
    destruct t1 as [|c t1]; [discriminate|].
    destruct (is_dot c) eqn:D; [|discriminate].
    apply pmatch_lit_inv in E. destruct E as (t2 & -> & E).
    exists (js "youtu" ++ [c] ++ js "be/"), t2. eexists. split; [|split].
    + rewrite <- !app_assoc. reflexivity.
    + left. eauto.
    + exact E.
  - inv H. apply pmatch_lit_inv in E0. destruct E0 as (t1 & -> & E0).
    exists (js "v/"), t1. eexists. split; [reflexivity|]. split; [auto|].
    exact E0.
  - inv H. apply pmatch_lit_inv in E1. destruct E1 as (t1 & -> & E1).
    destruct t1 as [|c t1]; [discriminate|].
    destruct (is_word c) eqn:D; [|discriminate].
    apply pmatch_lit_inv in E1. destruct E1 as (t2 & -> & E1).
    exists (js "/u/" ++ [c] ++ js "/"), t2. eexists. split; [|split].
    + rewrite <- !app_assoc. reflexivity.
    + right. right. left. eauto.
    + exact E1.
  - inv H. apply pmatch_lit_inv in E2. destruct E2 as (t1 & -> & E2).
    exists (js "embed/"), t1. eexists. split; [reflexivity|].
    split; [auto|]. exact E2.
  - apply pmatch_lit_inv in H. destruct H as (t1 & -> & H).
    exists (js "watch?"), t1. eexists. split; [reflexivity|].
    split; [tauto|]. exact H.
Qed.

(** At a marker text, group 1 takes it. *)
Lemma markerGroup_eval m t caps k :
  marker_text m -> (forall t c, k t c <> None) ->
  exists caps', pmatch markerGroup (m ++ t) caps k = k t caps'.
Proof.
  intros Hm Hk. unfold markerGroup.
  destruct Hm as [(c & Hc & ->)|[->|[(c & Hc & ->)|[->| ->]]]];
    cbn -[consumed]; rewrite ?Hc;
    match goal with
    | |- exists caps', match k t ?x with _ => _ end = _ =>
        exists x; destruct (k t x) eqn:E; [reflexivity|];
        exfalso; eapply Hk, E
    | |- exists caps', k t ?x = _ => exists x; reflexivity
    end.
Qed.

Lemma afterDots_inv t caps res :
  afterDots t caps = Some res ->
  exists m t', t = m ++ t' /\ marker_text m /\ res 7%nat = Some (idText t').
Proof.
  unfold afterDots. rewrite pmatch_seq. intros H.
  apply markerGroup_inv in H. destruct H as (m & t' & caps' & -> & Hm & H).
  rewrite idPart_eval in H. inv H. exists m, t'. auto.
Qed.

Lemma afterDots_eval m t caps :
  marker_text m ->
  exists res, afterDots (m ++ t) caps = Some res
              /\ res 7%nat = Some (idText t).
Proof.
  intros Hm. unfold afterDots. rewrite pmatch_seq.
  destruct (markerGroup_eval m t caps
              (fun s' caps' => pmatch idPart s' caps' (fun _ c => Some c))
              Hm) as (caps' & E).
  - intros u c. rewrite idPart_eval. discriminate.
  - rewrite E, idPart_eval. eexists. split; reflexivity.
Qed.

Lemma string_match_regExp url :
  string_match regExp url = greedy_cls is_dot afterDots url no_captures.
Proof.
  unfold string_match, regExp. rewrite pmatch_seq, pmatch_star_cls.
  reflexivity.
Qed.

(** ** [extractVideoId]: what it returns was read after a marker *)

Lemma extractVideoId_sound url v :
  extractVideoId url = Some v ->
  List.length v = 11%nat
  /\ Forall (fun c => is_id_char c = true) v
  /\ exists pre m t,
       url = pre ++ m ++ t
       /\ Forall (fun c => is_dot c = true) pre
       /\ marker_text m
       /\ v = idText t.
Proof.
  unfold extractVideoId. rewrite string_match_regExp.
  destruct (greedy_cls is_dot afterDots url no_captures) as [res|] eqn:G;
    [|discriminate].
  apply greedy_cls_some in G. destruct G as (n & Hn & Hp & Hk).
  apply afterDots_inv in Hk. destruct Hk as (m & t & E & Hm & H7).
  rewrite H7. destruct (List.length (idText t) =? 11)%nat eqn:L;
    [|discriminate].
  intros V. inv V. apply Nat.eqb_eq in L. split; [exact L|]. split.
  - apply take_run_all.
  - exists (firstn n url), m, t. repeat split; try assumption.
    rewrite <- E. symmetry. apply firstn_skipn.
Qed.

(** ** [extractVideoId]: the identifier after the last marker *)

Lemma marker_ends m :
  marker_text m -> exists body x, m = body ++ [x] /\ (x = slash \/ x = question).
Proof.
  intros [(c & _ & ->)|[->|[(c & _ & ->)|[->| ->]]]].
  - exists (js "youtu" ++ [c] ++ js "be"), slash. auto.
  - exists (js "v"), slash. auto.
  - exists (js "/u/" ++ [c]), slash. auto.
  - exists (js "embed"), slash. auto.
  - exists (js "watch"), question. auto.
Qed.

Lemma marker_has_piece m :
  marker_text m ->
  exists w a b, In w marker_pieces /\ m = a ++ w ++ b.
Proof.
  unfold marker_pieces.
  intros [(c & _ & ->)|[->|[(c & _ & ->)|[->| ->]]]].
  - exists (js "youtu"), [], ([c] ++ js "be/").
    split; [simpl; auto 10|reflexivity].
  - exists (js "v/"), [], []. split; [simpl; auto 10|reflexivity].
  - exists (js "/u/"), [], ([c] ++ js "/").
    split; [simpl; auto 10|reflexivity].
  - exists (js "embed/"), [], []. split; [simpl; auto 10|reflexivity].
  - exists (js "watch?"), [], []. split; [simpl; auto 10|reflexivity].
Qed.

Lemma starts_with_app w b : starts_with w (w ++ b) = true.
Proof.
  induction w as [|c w IH]; [reflexivity|].
  simpl. unfold char_eqb. rewrite Ascii.eqb_refl. exact IH.
Qed.

Lemma occurs_app a w b : occurs w (a ++ w ++ b) = true.
Proof.
  induction a as [|c a IH].
  - simpl app. destruct (w ++ b) eqn:E; unfold occurs; fold occurs;
      rewrite <- E, starts_with_app; reflexivity.
  - cbn [app occurs]. rewrite IH. apply orb_true_r.
Qed.

Lemma marker_nonempty m : marker_text m -> m <> [].
Proof.
  intros H E. apply marker_ends in H. destruct H as (body & x & H & _).
  rewrite E in H. destruct body; discriminate.
Qed.

(** After a marker whose tail starts no marker, and before a text with no
    [/] and no [?], the rest of [regExp] fails at every later position. *)
Lemma no_later_marker m U caps :
  no_separator U -> marker_free_tail m = true ->
  forall pre c t, m ++ U = pre ++ c :: t -> afterDots t caps = None.
Proof.
  intros HU Hm pre c t E.
  destruct (afterDots t caps) as [res|] eqn:A; [exfalso|reflexivity].
  apply afterDots_inv in A. destruct A as (m' & t' & -> & Hm' & _).
  assert (Inside : forall l, m = (pre ++ c :: m') ++ l -> False).
  { intros l El.
    destruct (marker_has_piece m' Hm') as (w & a & b & Hw & ->).
    unfold marker_free_tail in Hm.
    eapply forallb_forall in Hm; [|exact Hw].
    apply negb_true_iff in Hm.
    assert (T : exists X, tl m = X ++ a ++ w ++ b ++ l).
    { rewrite El. destruct pre as [|p pre]; cbn [app tl].
      - exists []. rewrite <- ?app_assoc. reflexivity.
      - exists (pre ++ [c]). rewrite <- ?app_assoc. cbn [app].
        rewrite <- ?app_assoc. reflexivity. }
    destruct T as [X T]. rewrite T in Hm.
    replace (X ++ a ++ w ++ b ++ l) with ((X ++ a) ++ w ++ (b ++ l)) in Hm
      by (rewrite <- !app_assoc; reflexivity).
    rewrite occurs_app in Hm. discriminate. }
  change (pre ++ c :: m' ++ t') with (pre ++ (c :: m') ++ t') in E.
  rewrite app_assoc in E. apply app_eq_app in E.
  destruct E as (l & [[E1 E2]|[E1 E2]]).
  - eapply Inside, E1.
  - destruct (marker_ends m' Hm') as (body & x & -> & Hx).
    destruct (exists_last (l := l)) as (l' & y & ->).
    + intros ->. rewrite app_nil_r in E1. eapply (Inside []).
      rewrite app_nil_r. symmetry. exact E1.
    + replace (pre ++ c :: body ++ [x]) with ((pre ++ c :: body) ++ [x])
        in E1 by (rewrite <- app_assoc; reflexivity).
      rewrite app_assoc in E1. apply app_inj_tail in E1.
      destruct E1 as [_ <-].
      unfold no_separator in HU. rewrite E2 in HU.
      rewrite <- app_assoc in HU. apply Forall_app in HU.
      destruct HU as [_ HU]. apply Forall_app in HU. destruct HU as [HU _].
      inv HU. destruct Hx; tauto.
Qed.

(** The match of [regExp] when no marker follows the one at hand. *)
Lemma regExp_after_marker pre m U :
  Forall (fun c => is_dot c = true) pre ->
  marker_text m -> marker_free_tail m = true -> no_separator U ->
  exists res, string_match regExp (pre ++ m ++ U) = Some res
              /\ res 7%nat = Some (idText U).
Proof.
  intros Hp Hm Hf HU.
  destruct (afterDots_eval m U no_captures Hm) as (res & E & H7).
  exists res. split; [|exact H7].
  rewrite string_match_regExp. apply greedy_cls_prefix; [exact Hp|].
  rewrite greedy_cls_back; [exact E|].
  apply no_later_marker; assumption.
Qed.

Lemma extractVideoId_after_marker pre m U :
  Forall (fun c => is_dot c = true) pre ->
  marker_text m -> marker_free_tail m = true -> no_separator U ->
  extractVideoId (pre ++ m ++ U)
  = if (List.length (idText U) =? 11)%nat then Some (idText U) else None.
Proof.
  intros Hp Hm Hf HU.
  destruct (regExp_after_marker pre m U Hp Hm Hf HU) as (res & E & H7).
  unfold extractVideoId. rewrite E, H7. reflexivity.
Qed.

(** *** Plain identifiers and tails *)

Lemma id_char_not_question c : is_id_char c = true -> c <> question.
Proof. intros H ->. discriminate H. Qed.

Lemma plain_id_no_separator v : plain_id v -> no_separator v.
Proof.
  intros [_ H]. unfold no_separator. eapply Forall_impl; [|exact H].
  intros c [Hc Hs]. split; [exact Hs|apply id_char_not_question, Hc].
Qed.

Lemma plain_id_chars v : plain_id v -> Forall (fun c => is_id_char c = true) v.
Proof.
  intros [_ H]. eapply Forall_impl; [|exact H]. intros c [Hc _]. exact Hc.
Qed.

Lemma plain_tail_no_separator rest : plain_tail rest -> no_separator rest.
Proof.
  intros [->|(c & r & -> & Hc & Hr)]; [constructor|].
  constructor; [|exact Hr].
  destruct Hc as [-> | ->]; split; discriminate.
Qed.

Lemma plain_tail_stops rest :
  plain_tail rest ->
  rest = [] \/ exists c r, rest = c :: r /\ is_id_char c = false.
Proof.
  intros [->|(c & r & -> & Hc & _)]; [auto|].
  right. exists c, r. split; [reflexivity|].
  destruct Hc as [-> | ->]; reflexivity.
Qed.

Lemma take_id_plain v rest :
  plain_id v -> plain_tail rest -> take_run is_id_char (v ++ rest) = v.
Proof.
  intros Hv Hr. apply take_run_app;
    [apply plain_id_chars, Hv|apply plain_tail_stops, Hr].
Qed.

Lemma digit_no_separator c :
  is_digit c = true -> c <> slash /\ c <> question.
Proof. intros H. split; intros ->; discriminate H. Qed.

Lemma numberToString_no_separator n : no_separator (numberToString n).
Proof.
  unfold no_separator. destruct n as [|z]; cbn [numberToString].
  - repeat constructor; discriminate.
  - unfold toString. destruct (z <? 0) eqn:E.
    + apply Z.ltb_lt in E. constructor; [split; discriminate|].
      destruct (digits_spec (- z) ltac:(lia)) as (A & _ & _).
      eapply Forall_impl; [|exact A]. apply digit_no_separator.
    + apply Z.ltb_ge in E. destruct (digits_spec z E) as (A & _ & _).
      eapply Forall_impl; [|exact A]. apply digit_no_separator.
Qed.

(** A link [...watch?v=<id><tail>]. *)
Lemma extractVideoId_watch pre v rest :
  Forall (fun c => is_dot c = true) pre -> plain_id v -> plain_tail rest ->
  extractVideoId (pre ++ js "watch?v=" ++ v ++ rest) = Some v.
Proof.
  intros Hp Hv Hr.
  change (js "watch?v=" ++ v ++ rest)
    with (js "watch?" ++ (js "v=" ++ v ++ rest)).
  rewrite extractVideoId_after_marker.
  - assert (E : idText (js "v=" ++ v ++ rest) = v)
      by (unfold idText; cbn [js list_ascii_of_string app strip char_eqb
                              Ascii.eqb Bool.eqb andb];
          apply take_id_plain; assumption).
    rewrite E. destruct Hv as [L _]. rewrite L. reflexivity.
  - exact Hp.
  - unfold marker_text. tauto.
  - reflexivity.
  - unfold no_separator. apply Forall_app. split.
    + repeat constructor; discriminate.
    + apply Forall_app. split;
        [apply plain_id_no_separator, Hv|apply plain_tail_no_separator, Hr].
Qed.

Lemma short_marker_text m :
  In m [js "youtu.be/"; js "embed/"; js "v/"] ->
  marker_text m /\ marker_free_tail m = true.
Proof.
  intros [<-|[<-|[<-|[]]]]; (split; [|reflexivity]); unfold marker_text.
  - left. exists "."%char. split; reflexivity.
  - tauto.
  - tauto.
Qed.

(** A link [...youtu.be/<id><tail>], and likewise with [embed/] and
    [v/]: the optional [v] and [=] of [regExp] eat a leading [v] or [=]
    of the identifier. *)
Lemma extractVideoId_short pre m v rest :
  Forall (fun c => is_dot c = true) pre ->
  In m [js "youtu.be/"; js "embed/"; js "v/"] ->
  plain_id v -> plain_tail rest ->
  extractVideoId (pre ++ m ++ v ++ rest)
  = if starts_with (js "v") v || starts_with (js "=") v
    then None else Some v.
Proof.
  intros Hp Hin Hv Hr.
  destruct (short_marker_text m Hin) as [Hm Hf].
  rewrite extractVideoId_after_marker; try assumption.
  2:{ unfold no_separator. apply Forall_app. split;
        [apply plain_id_no_separator, Hv|apply plain_tail_no_separator, Hr]. }
  pose proof Hv as [L Hc].
  destruct v as [|x v]; [discriminate L|].
  injection L as L. inversion Hc as [|? ? [Hx _] Hc']; subst.
  assert (Q : char_eqb x "?" = false).
  { unfold char_eqb. apply Ascii.eqb_neq. apply id_char_not_question, Hx. }
  assert (Tail : forall w, Forall (fun c => is_id_char c = true /\ c <> slash) w ->
                           take_run is_id_char (w ++ rest) = w).
  { intros w Hw. apply take_run_app; [|apply plain_tail_stops, Hr].
    eapply Forall_impl; [|exact Hw]. intros c [H _]. exact H. }
  unfold idText. cbn [app strip starts_with js list_ascii_of_string].
  rewrite Q. cbn [strip]. rewrite !andb_true_r.
  replace (char_eqb "v" x) with (char_eqb x "v")
    by (unfold char_eqb; apply Ascii.eqb_sym).
  replace (char_eqb "=" x) with (char_eqb x "=")
    by (unfold char_eqb; apply Ascii.eqb_sym).
  destruct (char_eqb x "v") eqn:V.
  - cbn [orb]. destruct v as [|y v']; [discriminate L|].
    cbn [app strip]. inversion Hc' as [|? ? _ Hc'']; subst.
    destruct (char_eqb y "=").
    + rewrite (Tail v' Hc''). simpl in L.
      assert (E : (List.length v' =? 11)%nat = false)
        by (apply Nat.eqb_neq; lia).
      rewrite E. reflexivity.
    + change (y :: v' ++ rest) with ((y :: v') ++ rest).
      rewrite (Tail (y :: v') Hc').
      assert (E : (List.length (y :: v') =? 11)%nat = false)
        by (apply Nat.eqb_neq; rewrite L; discriminate).
      rewrite E. reflexivity.
  - cbn [strip]. destruct (char_eqb x "=") eqn:Q2.
    + cbn [orb]. rewrite (Tail v Hc').
      assert (E : (List.length v =? 11)%nat = false)
        by (apply Nat.eqb_neq; rewrite L; discriminate).
      rewrite E. reflexivity.
    + cbn [orb]. change (x :: v ++ rest) with ((x :: v) ++ rest).
      rewrite (Tail (x :: v) Hc). cbn [List.length]. rewrite L. reflexivity.
Qed.

(** A URL in which no piece of a marker occurs has no marker. *)
Lemma no_piece_no_match url :
  existsb (fun w => occurs w url) marker_pieces = false ->
  extractVideoId url = None.
Proof.
  intros H. destruct (extractVideoId url) as [v|] eqn:E; [|reflexivity].
  apply extractVideoId_sound in E.
  destruct E as (_ & _ & pre & m & t & -> & _ & Hm & _).
  destruct (marker_has_piece m Hm) as (w & a & b & Hw & ->).
  assert (O : occurs w (pre ++ (a ++ w ++ b) ++ t) = true).
  { replace (pre ++ (a ++ w ++ b) ++ t) with ((pre ++ a) ++ w ++ (b ++ t))
      by (rewrite <- !app_assoc; reflexivity).
    apply occurs_app. }
  assert (X : existsb (fun piece => occurs piece (pre ++ (a ++ w ++ b) ++ t))
                marker_pieces = true)
    by (apply existsb_exists; exists w; auto).
  rewrite X in H. discriminate.
Qed.

Lemma timestampUrl_extract md ts :
  plain_id (videoId md) ->
  extractVideoId (timestampUrl md ts) = Some (videoId md).
Proof.
  intros Hv. unfold timestampUrl.
  change (js "https://www.youtube.com/watch?v=" ++ videoId md
             ++ js "&t=" ++ numberToString (seconds ts) ++ js "s")
    with (js "https://www.youtube.com/"
             ++ js "watch?v=" ++ videoId md
             ++ "&"%char :: (js "t=" ++ numberToString (seconds ts) ++ js "s")).
  apply extractVideoId_watch; [repeat constructor|exact Hv|].
  right. eexists _, _. split; [reflexivity|]. split; [auto|].
  apply Forall_app. split; [repeat constructor; discriminate|].
  apply Forall_app. split; [apply numberToString_no_separator|].
  repeat constructor; discriminate.
Qed.

(** * Further properties, stated *)

(** X1. For a duration that is a whole number of seconds (0 while it is
    not known), sanitizing twice is sanitizing once: [formatTimeString]
    applied to its own result, with the same duration, returns it
    unchanged. *)
Theorem X1_formatTimeString_idempotent :
  forall input d,
    formatTimeString (formatTimeString input d) d = formatTimeString input d.
Proof. apply formatTimeString_twice. Qed.

(** X2. A time that passes the commit check and does not read beyond a
    known duration (or is typed while the duration is not known) is left
    as it is by [formatTimeString]. *)
Theorem X2_formatTimeString_keeps_valid_time (t : jsstring) (d : Z) :
  validateCommitFormat t = true ->
  (d <= 0 \/ exists v, timeToSeconds t = Num v /\ v <= d) ->
  formatTimeString t d = t.
Proof.
  intros Hv Hd. unfold validateCommitFormat in Hv.
  apply timeRegex_grammar, grammar_shape in Hv.
  rewrite formatTimeString_of_shape by exact Hv.
  destruct Hd as [Hd|(v & Ev & Hd)].
  - assert (E : (0 <? d) = false) by (apply Z.ltb_ge; exact Hd).
    rewrite E, andb_false_r. reflexivity.
  - rewrite Ev. simpl num_gt.
    assert (E : (d <? v) = false) by (apply Z.ltb_ge; exact Hd).
    rewrite E. reflexivity.
Qed.

Lemma X2_formatTimeString_keeps_valid_time_witness :
  validateCommitFormat (js "1:12:34") = true
  /\ (exists v, timeToSeconds (js "1:12:34") = Num v /\ v <= 5000)
  /\ formatTimeString (js "1:12:34") 5000 = js "1:12:34".
Proof.
  assert (H : exists v, timeToSeconds (js "1:12:34") = Num v /\ v <= 5000)
    by (exists 4354; split; [reflexivity|lia]).
  split; [reflexivity|]. split; [exact H|].
  apply (X2_formatTimeString_keeps_valid_time (js "1:12:34") 5000 eq_refl).
  right. exact H.
Defined.

(** X3. Whatever is typed, and for a duration that is a whole number of
    seconds (0 while it is not known), [formatTimeString] returns two or
    three fields of digits separated by colons, none of them empty and
    the last of exactly two digits, and [timeToSeconds] reads the result
    as a number that is not negative, never as [NaN]. *)
Theorem X3_formatTimeString_result_shape :
  forall input d,
    sanitized_shape (formatTimeString input d)
    /\ exists v, timeToSeconds (formatTimeString input d) = Num v /\ 0 <= v.
Proof.
  intros input d. split; [apply formatTimeString_shape|].
  apply shape_reads_number, formatTimeString_shape.
Qed.

(** X4. The time [captureCurrentTime] of Index.tsx writes for a player
    position of [cs >= 0] seconds reads back, by [timeToSeconds], as
    [cs]. *)
Theorem X4_captured_time_reads_back (cs : Z) (cur : jsstring) :
  0 <= cs -> timeToSeconds (captureCurrentTime (Some cs) cur) = Num cs.
Proof. apply capture_reads. Qed.

Lemma X4_captured_time_reads_back_witness :
  0 <= 4503
  /\ captureCurrentTime (Some 4503) (js "0:00") = js "75:03"
  /\ timeToSeconds (captureCurrentTime (Some 4503) (js "0:00")) = Num 4503.
Proof.
  split; [lia|]. split; [reflexivity|].
  apply (X4_captured_time_reads_back 4503 (js "0:00")). lia.
Defined.

(** X5. The time [captureCurrentTime] of Index.tsx writes passes the
    commit check of [addTimestamp] exactly when the player position is
    below one hour: from 3600 seconds on the minutes field is 60 or more
    and the captured time cannot be added. *)
Theorem X5_captured_time_commits_below_one_hour (cs : Z) (cur : jsstring) :
  0 <= cs ->
  (validateCommitFormat (captureCurrentTime (Some cs) cur) = true
   <-> cs < 3600).
Proof. apply capture_commit. Qed.

Lemma X5_captured_time_commits_below_one_hour_witness :
  0 <= 4503
  /\ validateCommitFormat (captureCurrentTime (Some 4503) (js "0:00")) = false
  /\ (validateCommitFormat (captureCurrentTime (Some 4503) (js "0:00")) = true
      <-> 4503 < 3600).
Proof.
  split; [lia|]. split; [reflexivity|].
  apply (X5_captured_time_commits_below_one_hour 4503 (js "0:00")). lia.
Defined.

(** X6. With a player and a duration [d >= 0] that is a whole number of
    seconds, [adjustTime] moves to the
    position [min (max (current + delta) 0) d], which lies in [0, d]; the
    time it writes passes the commit check and reads back as that
    position. *)
Theorem X6_adjustTime_stays_in_range (cur delta d : Z) :
  0 <= d ->
  exists t n,
    adjustTime (Some cur) delta d = Some (t, n)
    /\ n = Z.min (Z.max (cur + delta) 0) d
    /\ 0 <= n <= d
    /\ validateCommitFormat t = true
    /\ timeToSeconds t = Num n.
Proof.
  intros Hd. eexists _, _. split; [reflexivity|].
  split; [reflexivity|]. split; [lia|]. split.
  - unfold validateCommitFormat.
    apply timeRegex_grammar, formatSeconds_grammar. lia.
  - apply timeToSeconds_formatSeconds. lia.
Qed.

Lemma X6_adjustTime_stays_in_range_witness :
  0 <= 100
  /\ adjustTime (Some 98) 5 100 = Some (js "1:40", 100)
  /\ exists t n,
       adjustTime (Some 98) 5 100 = Some (t, n)
       /\ n = Z.min (Z.max (98 + 5) 0) 100
       /\ 0 <= n <= 100
       /\ validateCommitFormat t = true
       /\ timeToSeconds t = Num n.
Proof.
  split; [lia|]. split; [reflexivity|].
  apply (X6_adjustTime_stays_in_range 98 5 100). lia.
Defined.

(** X7. [parseTimeInput] reads a formatted count of [s >= 0] seconds as
    the smaller of [s] and the duration. *)
Theorem X7_parseTimeInput_clamps (s d : Z) :
  0 <= s -> parseTimeInput (formatSeconds s) d = Num (Z.min s d).
Proof.
  intros H. rewrite parseTimeInput_min, timeToSeconds_formatSeconds by lia.
  reflexivity.
Qed.

Lemma X7_parseTimeInput_clamps_witness :
  0 <= 3725 /\ parseTimeInput (formatSeconds 3725) 3000 = Num 3000.
Proof.
  split; [lia|]. apply (X7_parseTimeInput_clamps 3725 3000). lia.
Defined.

(** X8. With a player and a known duration [d > 0] that is a whole
    number of seconds, pressing Enter on a
    time that went through [formatTimeString] always seeks, to a
    position in [0, d]. *)
Theorem X8_enter_seeks_within_duration (cur : Z) (input : jsstring) (d : Z) :
  0 < d ->
  exists n,
    handleTimeKeyDown (Some cur) (js "Enter") (formatTimeString input d) d
    = KeySeek (Num n)
    /\ 0 <= n <= d.
Proof.
  intros Hd. destruct (formatTimeString_clamp input d Hd) as (n & En & Hn).
  exists n. split; [|exact Hn].
  unfold handleTimeKeyDown. cbn [js list_ascii_of_string str_eqb char_eqb].
  cbn. rewrite En. simpl num_le.
  assert (E : (n <=? d) = true) by (apply Z.leb_le; lia).
  rewrite E. reflexivity.
Qed.

Lemma X8_enter_seeks_within_duration_witness :
  0 < 100
  /\ handleTimeKeyDown (Some 7) (js "Enter")
       (formatTimeString (js "99:99") 100) 100
     = KeySeek (Num 100)
  /\ exists n,
       handleTimeKeyDown (Some 7) (js "Enter")
         (formatTimeString (js "99:99") 100) 100
       = KeySeek (Num n)
       /\ 0 <= n <= 100.
Proof.
  split; [lia|]. split; [reflexivity|].
  apply (X8_enter_seeks_within_duration 7 (js "99:99") 100). lia.
Defined.

(** X9. [addTimestamp] commits an entry exactly when a video is loaded,
    the description is not empty and the time passes the commit check;
    it then appends one record (id from the clock, the time and the
    description as given, seconds read from the time) and shows
    "Timestamp added".  In every other case the list is unchanged. *)
Theorem X9_addTimestamp_commits_or_keeps :
  forall md now t d l,
    (snd (addTimestamp md now t d l)
     = Some (ToastSuccess (js "Timestamp added"))
     <-> md <> None /\ d <> [] /\ validateCommitFormat t = true)
    /\ (snd (addTimestamp md now t d l)
        = Some (ToastSuccess (js "Timestamp added")) ->
        fst (addTimestamp md now t d l)
        = l ++ [{| id := toString now; time := t; description := d;
                   seconds := timeToSeconds t |}])
    /\ (snd (addTimestamp md now t d l)
        <> Some (ToastSuccess (js "Timestamp added")) ->
        fst (addTimestamp md now t d l) = l).
Proof.
  intros md now t d l. split; [apply addTimestamp_commits|].
  destruct (addTimestamp_cases md now t d l)
    as [[E|[msg E]]|(_ & _ & _ & _ & E)]; rewrite E; cbn [fst snd];
    split; intros H; try reflexivity; try discriminate H.
  exfalso. apply H. reflexivity.
Qed.

(** X10. Removing the id of an entry just added, when no earlier entry
    has that id, gives back the list as it was before the add. *)
Theorem X10_remove_undoes_add
        (md : option VideoMetadata) (now : Z) (t d : jsstring)
        (l : list Timestamp) :
  ~ In (toString now) (map id l) ->
  fst (removeTimestamp (toString now) (fst (addTimestamp md now t d l))) = l.
Proof. apply remove_after_add. Qed.

Lemma X10_remove_undoes_add_witness :
  let md := Some (loadedMetadata (js "dQw4w9WgXcQ")) in
  let a := {| id := js "1"; time := js "0:50"; description := js "a";
              seconds := Num 50 |} in
  ~ In (toString 2) (map id [a])
  /\ List.length (fst (addTimestamp md 2 (js "0:10") (js "b") [a])) = 2%nat
  /\ fst (removeTimestamp (toString 2)
            (fst (addTimestamp md 2 (js "0:10") (js "b") [a]))) = [a].
Proof.
  intros md a.
  assert (H : ~ In (toString 2) (map id [a]))
    by (simpl; intuition discriminate).
  split; [exact H|]. split; [reflexivity|].
  apply (X10_remove_undoes_add md 2 (js "0:10") (js "b") [a] H).
Defined.

(** X11. Removing an id twice is removing it once, and two removals give
    the same list in either order. *)
Theorem X11_remove_idempotent_and_commutes :
  forall a b l,
    fst (removeTimestamp a (fst (removeTimestamp a l)))
    = fst (removeTimestamp a l)
    /\ fst (removeTimestamp a (fst (removeTimestamp b l)))
       = fst (removeTimestamp b (fst (removeTimestamp a l))).
Proof.
  intros a b l. cbn [removeTimestamp fst]. split.
  - apply filter_twice.
  - apply filter_comm.
Qed.

(** X12. Every entry of a ledger reached by loads, adds, removes,
    renders and copies has a time that passes the commit check, a
    description that is not empty and seconds that are a number, not
    negative. *)
Theorem X12_entries_are_valid :
  forall evs, Forall valid_entry (timestamps (run evs)).
Proof. intros evs. unfold run. apply run_valid. constructor. Qed.

(** X13. What is shown and what is exported depend only on the entries
    added and not removed, in the order they were added: the sorts that
    earlier renders and copies did on the stored array change neither
    the sorted view nor the exported text. *)
Theorem X13_view_independent_of_earlier_sorts :
  forall evs,
    sortedView (timestamps (run evs)) = sortedView (inserted evs)
    /\ exportText (timestamps (run evs)) = exportText (inserted evs).
Proof.
  intros evs. split; [apply sortedView_run_inserted|].
  unfold exportText. rewrite sortedView_run_inserted. reflexivity.
Qed.

(** X14. On a reachable ledger a render, and a copy, leave in the stored
    array the sorted view: the same entries, none lost and none twice;
    after that, further renders and copies leave the stored array as it
    is. *)
Theorem X14_sort_settles_stored_array :
  forall evs,
    timestamps (step (run evs) EvRender) = sortedView (timestamps (run evs))
    /\ timestamps (step (run evs) EvCopy) = sortedView (timestamps (run evs))
    /\ Permutation (timestamps (step (run evs) EvRender)) (timestamps (run evs))
    /\ (forall ev, ev = EvRender \/ ev = EvCopy ->
          timestamps (step (step (run evs) ev) EvRender)
          = timestamps (step (run evs) ev)
          /\ timestamps (step (step (run evs) ev) EvCopy)
             = timestamps (step (run evs) ev)).
Proof.
  intros evs.
  assert (R : timestamps (step (run evs) EvRender)
              = sortedView (timestamps (run evs)))
    by apply render_stores_view.
  assert (C : timestamps (step (run evs) EvCopy)
              = sortedView (timestamps (run evs)))
    by (cbn [step timestamps]; apply copy_stores_view).
  split; [exact R|]. split; [exact C|]. split.
  - rewrite R. apply sortedView_perm.
  - intros ev Hev.
    assert (E : step (run evs) ev = run (evs ++ [ev]))
      by (unfold run; rewrite fold_left_app; reflexivity).
    assert (S : timestamps (run (evs ++ [ev]))
                = sortedView (timestamps (run evs)))
      by (rewrite <- E; destruct Hev as [-> | ->]; assumption).
    rewrite E. split.
    + rewrite render_stores_view, S. apply sortedView_twice.
    + cbn [step timestamps]. rewrite copy_stores_view, S.
      apply sortedView_twice.
Qed.

(** X15. [copyToClipboard] never writes an empty text: for the empty
    ledger it writes nothing and shows the error notice, and for a ledger
    with entries the text it writes is not empty. *)
Theorem X15_clipboard_text_never_empty :
  forall l,
    copy_clipboard (copyToClipboard l) <> Some []
    /\ (l = [] ->
        copy_clipboard (copyToClipboard l) = None
        /\ copy_toast (copyToClipboard l)
           = ToastError (js "No timestamps to copy"))
    /\ (l <> [] -> exists text,
          copy_clipboard (copyToClipboard l) = Some text /\ text <> []).
Proof.
  intros l. destruct l as [|x l].
  - repeat split; try discriminate. intros H. contradiction.
  - cbn [copyToClipboard List.length Nat.eqb copy_clipboard].
    repeat split.
    + intros H. inv H.
      match goal with K : exportText _ = [] |- _ =>
        apply exportText_nonempty in K; exact K end.
    + discriminate.
    + discriminate.
    + intros _. exists (exportText (x :: l)).
      split; [reflexivity|apply exportText_nonempty].
Qed.

(** X16. What [extractVideoId] returns has eleven characters, none of
    them [#], [&] or [?], and was read right after a marker ([youtu.be/],
    [v/], [/u/x/], [embed/] or [watch?]) on the first line of the URL,
    past an optional [?], [v] and [=]. *)
Theorem X16_extracted_id_follows_marker (url v : jsstring) :
  extractVideoId url = Some v ->
  List.length v = 11%nat
  /\ Forall (fun c => is_id_char c = true) v
  /\ exists pre m t,
       url = pre ++ m ++ t
       /\ Forall (fun c => is_dot c = true) pre
       /\ marker_text m
       /\ v = idText t.
Proof. apply extractVideoId_sound. Qed.

Lemma X16_extracted_id_follows_marker_witness :
  extractVideoId (js "https://youtu.be/dQw4w9WgXcQ") = Some (js "dQw4w9WgXcQ")
  /\ List.length (js "dQw4w9WgXcQ") = 11%nat
  /\ Forall (fun c => is_id_char c = true) (js "dQw4w9WgXcQ")
  /\ exists pre m t,
       js "https://youtu.be/dQw4w9WgXcQ" = pre ++ m ++ t
       /\ Forall (fun c => is_dot c = true) pre
       /\ marker_text m
       /\ js "dQw4w9WgXcQ" = idText t.
Proof.
  split; [reflexivity|].
  apply (X16_extracted_id_follows_marker
           (js "https://youtu.be/dQw4w9WgXcQ") (js "dQw4w9WgXcQ") eq_refl).
Defined.

(** X17. From a link [<prefix>watch?v=<id><tail>] [extractVideoId]
    returns [<id>], for every prefix without a line break, every
    identifier of eleven characters without [#], [&], [?] and [/], and
    every tail that is empty or starts with [#] or [&] and has no [/] and
    no [?]. *)
Theorem X17_watch_link_gives_id (pre v rest : jsstring) :
  Forall (fun c => is_dot c = true) pre -> plain_id v -> plain_tail rest ->
  extractVideoId (pre ++ js "watch?v=" ++ v ++ rest) = Some v.
Proof. apply extractVideoId_watch. Qed.

Lemma plain_id_sample : plain_id (js "dQw4w9WgXcQ").
Proof.
  split; [reflexivity|]. repeat constructor; discriminate.
Defined.

Lemma plain_tail_sample : plain_tail (js "&t=10s").
Proof.
  right. exists "&"%char, (js "t=10s"). split; [reflexivity|].
  split; [auto|]. repeat constructor; discriminate.
Defined.

Lemma X17_watch_link_gives_id_witness :
  Forall (fun c => is_dot c = true) (js "https://www.youtube.com/")
  /\ plain_id (js "dQw4w9WgXcQ")
  /\ plain_tail (js "&t=10s")
  /\ extractVideoId (js "https://www.youtube.com/" ++ js "watch?v="
                        ++ js "dQw4w9WgXcQ" ++ js "&t=10s")
     = Some (js "dQw4w9WgXcQ").
Proof.
  assert (H : Forall (fun c => is_dot c = true)
                (js "https://www.youtube.com/")) by (repeat constructor).
  split; [exact H|]. split; [exact plain_id_sample|].
  split; [exact plain_tail_sample|].
  apply (X17_watch_link_gives_id _ _ _ H plain_id_sample plain_tail_sample).
Defined.

(** X18. From a link [<prefix>youtu.be/<id><tail>], and likewise with
    [embed/] and [v/], [extractVideoId] returns [<id>] unless the
    identifier starts with [v] or [=]: then the optional [v] and [=] of
    the expression take that character, the text left has fewer than
    eleven characters, and the link is rejected. *)
Theorem X18_short_link_gives_id_unless_v (pre m v rest : jsstring) :
  Forall (fun c => is_dot c = true) pre ->
  In m [js "youtu.be/"; js "embed/"; js "v/"] ->
  plain_id v -> plain_tail rest ->
  extractVideoId (pre ++ m ++ v ++ rest)
  = if starts_with (js "v") v || starts_with (js "=") v
    then None else Some v.
Proof. apply extractVideoId_short. Qed.

Lemma plain_id_sample_v : plain_id (js "vQw4w9WgXcQ").
Proof.
  split; [reflexivity|]. repeat constructor; discriminate.
Defined.

Lemma X18_short_link_gives_id_unless_v_witness :
  Forall (fun c => is_dot c = true) (js "https://")
  /\ In (js "youtu.be/") [js "youtu.be/"; js "embed/"; js "v/"]
  /\ plain_id (js "vQw4w9WgXcQ")
  /\ plain_tail []
  /\ extractVideoId (js "https://" ++ js "youtu.be/" ++ js "vQw4w9WgXcQ" ++ [])
     = None.
Proof.
  assert (H : Forall (fun c => is_dot c = true) (js "https://"))
    by (repeat constructor).
  assert (I : In (js "youtu.be/") [js "youtu.be/"; js "embed/"; js "v/"])
    by (left; reflexivity).
  assert (T : plain_tail []) by (left; reflexivity).
  split; [exact H|]. split; [exact I|]. split; [exact plain_id_sample_v|].
  split; [exact T|].
  apply (X18_short_link_gives_id_unless_v _ _ _ _ H I plain_id_sample_v T).
Defined.

(** X19. A URL in which none of the texts [youtu], [v/], [/u/], [embed/]
    and [watch?] occurs is refused by [handleSubmit] with "Invalid
    YouTube URL" (or, when empty, with "Please enter a YouTube URL"),
    and the ledger is left as it is. *)
Theorem X19_url_without_marker_is_refused (url : jsstring) (st : Ledger) :
  existsb (fun w => occurs w url) marker_pieces = false ->
  extractVideoId url = None
  /\ fst (handleSubmit url st) = st
  /\ exists msg, snd (handleSubmit url st) = ToastError msg.
Proof.
  intros H. pose proof (no_piece_no_match url H) as E.
  split; [exact E|]. unfold handleSubmit. rewrite E.
  destruct (is_empty url); split; try reflexivity; eexists; reflexivity.
Qed.

Lemma X19_url_without_marker_is_refused_witness :
  existsb (fun w => occurs w (js "https://example.com/clip?x=1"))
          marker_pieces = false
  /\ extractVideoId (js "https://example.com/clip?x=1") = None
  /\ fst (handleSubmit (js "https://example.com/clip?x=1") initial)
     = initial
  /\ exists msg,
       snd (handleSubmit (js "https://example.com/clip?x=1") initial)
       = ToastError msg.
Proof.
  split; [reflexivity|].
  apply (X19_url_without_marker_is_refused
           (js "https://example.com/clip?x=1") initial eq_refl).
Defined.

(** X20. The link [openTimestampedVideo] opens for a timestamp, when
    there is no player, leads back to the same video: for an identifier
    of eleven characters without [#], [&], [?] and [/],
    [extractVideoId] of that link is the identifier, and [handleSubmit]
    on it loads that video with an empty list. *)
Theorem X20_timestamp_link_leads_back
        (md : VideoMetadata) (ts : Timestamp) (st : Ledger) :
  plain_id (videoId md) ->
  openTimestampedVideo (Some md) false ts = OpenWindow (timestampUrl md ts)
  /\ extractVideoId (timestampUrl md ts) = Some (videoId md)
  /\ handleSubmit (timestampUrl md ts) st
     = ({| metadata := Some (loadedMetadata (videoId md)); timestamps := [] |},
        ToastSuccess (js "Video loaded successfully")).
Proof.
  intros Hv. split; [reflexivity|].
  pose proof (timestampUrl_extract md ts Hv) as E. split; [exact E|].
  unfold handleSubmit. rewrite E. reflexivity.
Qed.

Lemma X20_timestamp_link_leads_back_witness :
  let md := loadedMetadata (js "dQw4w9WgXcQ") in
  let ts := {| id := js "1"; time := js "1:15"; description := js "a";
               seconds := Num 75 |} in
  plain_id (videoId md)
  /\ timestampUrl md ts
     = js "https://www.youtube.com/watch?v=dQw4w9WgXcQ&t=75s"
  /\ extractVideoId (timestampUrl md ts) = Some (videoId md).
Proof.
  intros md ts. split; [exact plain_id_sample|]. split; [reflexivity|].
  apply (X20_timestamp_link_leads_back md ts initial plain_id_sample).
Defined.
